(** * vite-plugin-dnn-ascx: marker rewriting, URL construction and mirroring

    A shallow embedding of the plugin ([dnnAscx], src/index.ts) and of the
    parts of the JavaScript and Node.js libraries it calls, followed by the
    properties of the specification that were settled against it.

    Conventions.
    - A JavaScript string is a sequence of code units.  The development
      works with code units below 256 (Latin-1), represented as [ascii];
      a string is a [list ascii].
    - Regular expressions are values of [regex]; their matcher follows the
      backtracking semantics of ECMAScript (greedy quantifiers, leftmost
      alternative first).
    - The file system, the [lastIndex] slot of the shared [marker] object
      and the calls made to the outside (renderer, disk, live-reload
      socket) are threaded through a state-and-exception monad [M].
    - The [marker] option is left unset: [marker] is the default pattern,
      with its [g] flag and its one capture group.
    - In [M] the calls that create a directory or write a file are
      recorded and succeed; [Disk] is a disk with files and directories
      on which the same calls fail as Node's do. *)

From Stdlib Require Import Ascii String DecimalString List Arith NArith Bool Lia.
Import ListNotations.

Abbreviation length := Datatypes.length.

Set Implicit Arguments.

(** ** Strings *)

Definition str := list ascii.

Definition js (s : string) : str := list_ascii_of_string s.
Arguments js s%_string.

Fixpoint str_eqb (a b : str) : bool :=
  match a, b with
  | [], [] => true
  | x :: a', y :: b' => Ascii.eqb x y && str_eqb a' b'
  | _, _ => false
  end.

(** [String.prototype.startsWith]. *)
Fixpoint startsWith (s p : str) : bool :=
  match p, s with
  | [], _ => true
  | c :: p', x :: s' => if Ascii.eqb x c then startsWith s' p' else false
  | _ :: _, [] => false
  end.

(** [String.prototype.endsWith]. *)
Definition endsWith (s p : str) : bool := startsWith (rev s) (rev p).

(** [String.prototype.substring] for in-range arguments. *)
Definition substring (s : str) (a b : nat) : str := firstn (b - a) (skipn a s).

(** [Array.prototype.includes] on an array of strings. *)
Definition includes (arr : list str) (x : str) : bool := existsb (str_eqb x) arr.

(** [String.prototype.toLowerCase], one code unit at a time: the letters
    A-Z and the Latin-1 capitals U+00C0-U+00DE (except the multiplication
    sign U+00D7) move up by 32; every other code unit below 256 is its own
    lower case. *)
Definition lower_char (c : ascii) : ascii :=
  let n := nat_of_ascii c in
  if ((65 <=? n) && (n <=? 90)) || ((192 <=? n) && (n <=? 222) && negb (n =? 215))
  then ascii_of_nat (n + 32) else c.

Definition toLowerCase (s : str) : str := map lower_char s.

(** ** Regular expressions *)

(** The fragment of the ECMAScript pattern language used by the plugin.
    Every quantifier in the source applies to a one-character atom. *)
Inductive regex : Type :=
| Eps
| Chr (c : ascii)
| Cls (f : ascii -> bool)
| Star (f : ascii -> bool)
| Plus (f : ascii -> bool)
| Opt (f : ascii -> bool)
| Bol
| Eol
| Grp (r : regex)
| Seq (r1 r2 : regex).

(** A literal run of characters. *)
Definition lit (s : str) : regex := fold_right (fun c r => Seq (Chr c) r) Eps s.

(** [\s]: WhiteSpace and LineTerminator code units below 256. *)
Definition is_space (c : ascii) : bool :=
  let n := nat_of_ascii c in
  ((9 <=? n) && (n <=? 13)) || (n =? 32) || (n =? 160).

(** [\w]. *)
Definition is_word (c : ascii) : bool :=
  let n := nat_of_ascii c in
  ((48 <=? n) && (n <=? 57)) || ((65 <=? n) && (n <=? 90))
  || ((97 <=? n) && (n <=? 122)) || (n =? 95).

Definition is_char (c x : ascii) : bool := Ascii.eqb x c.

Definition slash : ascii := "/"%char.
Definition backslash : ascii := "\"%char.

Section Matcher.
Variable A : Type.

(** A continuation receives the current index, the rest of the input and
    the current value of capture group 1. *)
Definition cont := nat -> str -> option str -> option A.

(** Greedy iteration of a one-character class: take as many as possible,
    give one back each time the continuation fails. *)
Fixpoint star (f : ascii -> bool) (i : nat) (suf : str) (cap : option str)
         (k : cont) : option A :=
  match suf with
  | x :: t =>
      if f x then
        match star f (S i) t cap k with
        | Some a => Some a
        | None => k i suf cap
        end
      else k i suf cap
  | [] => k i suf cap
  end.

Fixpoint rmatch (r : regex) (i : nat) (suf : str) (cap : option str)
         (k : cont) : option A :=
  match r with
  | Eps => k i suf cap
  | Chr c =>
      match suf with
      | x :: t => if Ascii.eqb x c then k (S i) t cap else None
      | [] => None
      end
  | Cls f =>
      match suf with
      | x :: t => if f x then k (S i) t cap else None
      | [] => None
      end
  | Star f => star f i suf cap k
  | Plus f =>
      match suf with
      | x :: t => if f x then star f (S i) t cap k else None
      | [] => None
      end
  | Opt f =>
      match suf with
      | x :: t =>
          if f x then
            match k (S i) t cap with
            | Some a => Some a
            | None => k i suf cap
            end
          else k i suf cap
      | [] => k i suf cap
      end
  | Bol => if i =? 0 then k i suf cap else None
  | Eol => match suf with [] => k i suf cap | _ :: _ => None end
  | Grp r1 => rmatch r1 i suf cap (fun j rest _ => k j rest (Some (firstn (j - i) suf)))
  | Seq r1 r2 => rmatch r1 i suf cap (fun j rest c => rmatch r2 j rest c k)
  end.
End Matcher.

(** One attempt of the pattern at index [i], where [suf] is the input from
    [i] on: the end index and capture group 1 of the first successful
    path. *)
Definition match_at (r : regex) (i : nat) (suf : str) : option (nat * option str) :=
  rmatch r i suf None (fun j _ c => Some (j, c)).

(** The match record returned by [RegExp.prototype.exec]. *)
Record MatchResult : Type := mkMatch {
  index : nat;
  endIndex : nat;
  matched : str;
  group1 : option str
}.

(** The search loop of RegExpBuiltinExec: try the pattern at [i], then at
    [i + 1], ... up to and including the end of the input. *)
Fixpoint scan (r : regex) (i : nat) (suf : str) : option MatchResult :=
  match match_at r i suf with
  | Some (e, cap) => Some (mkMatch i e (firstn (e - i) suf) cap)
  | None =>
      match suf with
      | [] => None
      | _ :: t => scan r (S i) t
      end
  end.

(** [exec] for a pattern with the [g] flag, from [lastIndex]. *)
Definition exec (r : regex) (s : str) (lastIndex : nat) : option MatchResult :=
  if length s <? lastIndex then None else scan r lastIndex (skipn lastIndex s).

(** The value [exec] leaves in [lastIndex]. *)
Definition lastIndex_after (m : option MatchResult) : nat :=
  match m with Some m => endIndex m | None => 0 end.

(** The default marker, [/<!--\s*@vite:entry\s+([^\s]+)\s*-->/g]. *)
Definition marker : regex :=
  Seq (lit (js "<!--"))
 (Seq (Star is_space)
 (Seq (lit (js "@vite:entry"))
 (Seq (Plus is_space)
 (Seq (Grp (Plus (fun c => negb (is_space c))))
 (Seq (Star is_space)
      (lit (js "-->"))))))).

(** ** [String.prototype.replace] *)

(** With a pattern that has no [g] flag: only the first match, searched
    from index 0, is replaced. *)
Definition replace_first (r : regex) (s repl : str) : str :=
  match exec r s 0 with
  | None => s
  | Some m => firstn (index m) s ++ repl ++ skipn (endIndex m) s
  end.

(** With the [g] flag, RegExp.prototype[Symbol.replace] first collects
    every result of [exec]; after an empty match it moves [lastIndex] one
    further.  [None] means that [fuel] iterations were not enough. *)
Fixpoint replace_matches (fuel : nat) (r : regex) (s : str) (lastIndex : nat)
  : option (list MatchResult) :=
  match fuel with
  | 0 => None
  | S fuel' =>
      match exec r s lastIndex with
      | None => Some []
      | Some m =>
          let next := if endIndex m =? index m then S (endIndex m) else endIndex m in
          option_map (cons m) (replace_matches fuel' r s next)
      end
  end.

(** Then the results are visited in order; each comes with its replacement
    text. *)
Fixpoint assemble (s : str) (nextSourcePosition : nat) (rs : list (MatchResult * str)) : str :=
  match rs with
  | [] => skipn nextSourcePosition s
  | (m, repl) :: rest =>
      let position := Nat.min (index m) (length s) in
      if nextSourcePosition <=? position then
        substring s nextSourcePosition position ++ repl
          ++ assemble s (position + length (matched m)) rest
      else assemble s nextSourcePosition rest
  end.

(** A [g] pattern written as a literal (a fresh object, [lastIndex] 0) and
    a replacement string without [$].  [length s + 2] iterations always
    suffice ([replace_matches_total]), so the last branch is never taken. *)
Definition replace_all (r : regex) (s repl : str) : str :=
  match replace_matches (length s + 2) r s 0 with
  | Some ms => assemble s 0 (map (fun m => (m, repl)) ms)
  | None => s
  end.

(** With a string pattern: the first occurrence of [pat]. *)
Fixpoint replace_str (s pat repl : str) : str :=
  if startsWith s pat then repl ++ skipn (length pat) s
  else match s with
       | [] => []
       | c :: t => c :: replace_str t pat repl
       end.

(** [Array.prototype.join]. *)
Fixpoint join (sep : str) (l : list str) : str :=
  match l with
  | [] => []
  | [x] => x
  | x :: rest => x ++ sep ++ join sep rest
  end.

(** ** Node's [path] module (POSIX flavour) *)

Module path.

(** The pieces between separators: ["a//b"] gives [a], [], [b]. *)
Fixpoint split (s : str) : list str :=
  match s with
  | [] => [[]]
  | c :: t =>
      if Ascii.eqb c slash then [] :: split t
      else match split t with
           | seg :: rest => (c :: seg) :: rest
           | [] => [[c]]
           end
  end.

Definition dot : str := js ".".
Definition dotdot : str := js "..".

(** One step of [normalizeString]; the segments kept so far are held
    last-first. *)
Definition norm_step (allowAboveRoot : bool) (stack : list str) (seg : str) : list str :=
  if str_eqb seg [] || str_eqb seg dot then stack
  else if str_eqb seg dotdot then
    match stack with
    | top :: below =>
        if str_eqb top dotdot
        then (if allowAboveRoot then seg :: stack else stack)
        else below
    | [] => if allowAboveRoot then [seg] else []
    end
  else seg :: stack.

Definition normalize_segs (allowAboveRoot : bool) (p : str) : list str :=
  rev (fold_left (norm_step allowAboveRoot) (split p) []).

Definition normalizeString (p : str) (allowAboveRoot : bool) : str :=
  join [slash] (normalize_segs allowAboveRoot p).

Definition isAbsolute (p : str) : bool :=
  match p with c :: _ => Ascii.eqb c slash | [] => false end.

Definition trailing_slash (p : str) : bool :=
  match rev p with c :: _ => Ascii.eqb c slash | [] => false end.

(** [path.normalize]. *)
Definition normalize (p : str) : str :=
  match p with
  | [] => dot
  | _ :: _ =>
      let q := normalizeString p (negb (isAbsolute p)) in
      match q with
      | [] => if isAbsolute p then [slash]
              else if trailing_slash p then js "./" else dot
      | _ :: _ =>
          let q' := if trailing_slash p then q ++ [slash] else q in
          if isAbsolute p then slash :: q' else q'
      end
  end.

(** [path.join] of two arguments. *)
Definition join2 (a b : str) : str :=
  match a, b with
  | [], [] => dot
  | [], _ => normalize b
  | _, [] => normalize a
  | _, _ => normalize (a ++ [slash] ++ b)
  end.

(** [path.basename] without a suffix argument: the last non-empty
    piece. *)
Definition basename (p : str) : str :=
  last (filter (fun seg => negb (str_eqb seg [])) (split p)) [].

Fixpoint dropwhile (f : ascii -> bool) (s : str) : str :=
  match s with
  | c :: t => if f c then dropwhile f t else s
  | [] => []
  end.

(** [path.dirname]. *)
Definition dirname (p : str) : str :=
  match p with
  | [] => dot
  | c0 :: t =>
      let hasRoot := Ascii.eqb c0 slash in
      let r1 := dropwhile (is_char slash) (rev t) in
      let r2 := dropwhile (fun c => negb (is_char slash c)) r1 in
      match r2 with
      | [] => if hasRoot then [slash] else dot
      | _ :: before =>
          if hasRoot && (length r2 =? 1) then js "//"
          else c0 :: rev before
      end
  end.

Section WithCwd.
(** [process.cwd()], an absolute path. *)
Variable cwd : str.

(** The segments of [path.resolve(p)]. *)
Definition resolve_segs (p : str) : list str :=
  normalize_segs false (if isAbsolute p then p else cwd ++ [slash] ++ p).

(** [path.resolve] of one argument. *)
Definition resolve (p : str) : str := slash :: join [slash] (resolve_segs p).

Fixpoint strip_common (a b : list str) : list str * list str :=
  match a, b with
  | x :: a', y :: b' => if str_eqb x y then strip_common a' b' else (a, b)
  | _, _ => (a, b)
  end.

(** [path.relative]: one [..] for each segment of [from] below the
    common ancestor, then what is left of [to]. *)
Definition relative (from to : str) : str :=
  if str_eqb from to then []
  else
    let '(up, down) := strip_common (resolve_segs from) (resolve_segs to) in
    join [slash] (map (fun _ => dotdot) up ++ down).
End WithCwd.

End path.

(** ** Data of the plugin *)

Inductive Mode : Type := dev | build.

Inductive Command : Type := serve | cmd_build.

(** The fields of a Rollup output chunk that the plugin reads;
    [importedCss] is [viteMetadata?.importedCss] in iteration order. *)
Record OutputChunk : Type := mkChunk {
  fileName : str;
  isEntry : bool;
  facadeModuleId : option str;
  importedCss : option (list str)
}.

Inductive BundleItem : Type :=
| chunk_item (c : OutputChunk)
| asset_item (name : str).

(** [Object.values(bundle)], in property order. *)
Definition OutputBundle := list BundleItem.

Record EntryRef : Type := mkRef {
  ref_ascxPath : str;
  ref_entryAbs : str
}.

Record DnnAscxRenderContext : Type := mkCtx {
  mode : Mode;
  ascxPath : str;
  entryFromMarker : str;
  entryAbs : str;
  jsUrl : str;
  cssUrls : list str;
  devClientUrl : option str;
  chunk : option OutputChunk
}.

(** The options, with [marker] left at its default. *)
Module Opts.
Record DnnAscxPluginOptions : Type := mk {
  ascxGlobs : list str;
  outAscxDir : option str;
  publicBase : option str;
  devOutAscxDir : option str;
  devOrigin : option str;
  ascxRootDir : option str;
  requireAtLeastOneEntry : option bool;
  render : option (DnnAscxRenderContext -> str)
}.
End Opts.
Abbreviation DnnAscxPluginOptions := Opts.DnnAscxPluginOptions.

Record ResolvedConfig : Type := mkConfig {
  command : Command;
  base : option str;
  publicDir : str;
  build_outDir : str
}.

(** [server.config.server]. *)
Record ViteDevServer : Type := mkServer {
  server_origin : option str;
  server_port : option N
}.

(** What a hook returns to Vite from [config]. *)
Inductive ConfigResult : Type :=
| watch_ignored (ignored : list str)
| rollup_input (inputs : list (str * str))
| no_change.

(** ** The world: disk, shared mutable variables, calls to the outside *)

Inductive Event : Type :=
| EvMkdir (dir : str)
| EvWrite (file contents : str)
| EvRender (ctx : DnnAscxRenderContext)
| EvWatch (glob : str)
| EvReload.

Inductive Exn : Type :=
| ENOENT (file : str)
| TypeError
| NoEntryMarkers
| Unfinished.

Record World : Type := mkWorld {
  files : str -> option str;
  lastIndex : nat;
  allAscxFiles : list str;
  refs : list EntryRef;
  ignore : list str;
  buildOutDir : str;
  devOutDir : str;
  prodOutDir : option str;
  log : list Event
}.

Definition M (A : Type) : Type := World -> (Exn + A) * World.

Definition ret {A} (a : A) : M A := fun w => (inr a, w).

Definition bind {A B} (m : M A) (f : A -> M B) : M B :=
  fun w => match m w with
           | (inr a, w') => f a w'
           | (inl e, w') => (inl e, w')
           end.

Definition throw {A} (e : Exn) : M A := fun w => (inl e, w).

Declare Scope m_scope.
Delimit Scope m_scope with m.
Notation "x <- c1 ;; c2" := (bind c1 (fun x => c2))
  (at level 61, c1 at next level, right associativity) : m_scope.
Notation "c1 ;; c2" := (bind c1 (fun _ => c2))
  (at level 61, right associativity) : m_scope.
Local Open Scope m_scope.

(** Updates of the world.  Creating a directory and writing a file are
    recorded and succeed (what makes them fail is the subject of [Disk]
    below); reading fails exactly when there is no file under that path;
    two paths name the same file when they are the same string. *)
Definition add_log (evs : list Event) (w : World) : World :=
  mkWorld (files w) (lastIndex w) (allAscxFiles w) (refs w)
          (ignore w) (buildOutDir w) (devOutDir w) (prodOutDir w) (log w ++ evs).

Definition with_lastIndex (n : nat) (w : World) : World :=
  mkWorld (files w) n (allAscxFiles w) (refs w)
          (ignore w) (buildOutDir w) (devOutDir w) (prodOutDir w) (log w).

Definition with_allAscxFiles (l : list str) (w : World) : World :=
  mkWorld (files w) (lastIndex w) l (refs w)
          (ignore w) (buildOutDir w) (devOutDir w) (prodOutDir w) (log w).

Definition with_refs (l : list EntryRef) (w : World) : World :=
  mkWorld (files w) (lastIndex w) (allAscxFiles w) l
          (ignore w) (buildOutDir w) (devOutDir w) (prodOutDir w) (log w).

Definition with_dirs (ign : list str) (b d : str) (p : option str) (w : World) : World :=
  mkWorld (files w) (lastIndex w) (allAscxFiles w) (refs w) ign b d p (log w).

Definition with_file (p contents : str) (w : World) : World :=
  mkWorld (fun q => if str_eqb q p then Some contents else files w q)
          (lastIndex w) (allAscxFiles w) (refs w)
          (ignore w) (buildOutDir w) (devOutDir w) (prodOutDir w)
          (log w ++ [EvWrite p contents]).

Definition emit (e : Event) : M unit := fun w => (inr tt, add_log [e] w).

Definition set_lastIndex (n : nat) : M unit := fun w => (inr tt, with_lastIndex n w).

Definition set_allAscxFiles (l : list str) : M unit :=
  fun w => (inr tt, with_allAscxFiles l w).

Definition set_refs (l : list EntryRef) : M unit := fun w => (inr tt, with_refs l w).

Definition set_dirs (ign : list str) (b d : str) (p : option str) : M unit :=
  fun w => (inr tt, with_dirs ign b d p w).

Definition get {A} (f : World -> A) : M A := fun w => (inr (f w), w).

(** [fs.readFileSync(p, "utf8")]: throws when there is no such file. *)
Definition readFileSync (p : str) : M str :=
  fun w => match files w p with
           | Some c => (inr c, w)
           | None => (inl (ENOENT p), w)
           end.

(** [fs.mkdirSync(p, { recursive: true })]. *)
Definition mkdirSync (p : str) : M unit := emit (EvMkdir p).

(** [fs.writeFileSync(p, contents, "utf8")]: the file now has these
    contents. *)
Definition writeFileSync (p contents : str) : M unit :=
  fun w => (inr tt, with_file p contents w).

(** [marker.exec(s)]: reads and updates [marker.lastIndex]. *)
Definition marker_exec (s : str) : M (option MatchResult) :=
  m <- get (fun w => exec marker s (lastIndex w)) ;;
  set_lastIndex (lastIndex_after m) ;;
  ret m.

(** [marker.test(s)]. *)
Definition marker_test (s : str) : M bool :=
  m <- marker_exec s ;;
  ret (match m with Some _ => true | None => false end).

(** The replacer function is called once for each collected result, in
    order; [S] is the state its closure keeps between calls. *)
Fixpoint run_replacer {S : Type} (cb : S -> MatchResult -> M (str * S)) (st : S)
         (ms : list MatchResult) : M (list (MatchResult * str)) :=
  match ms with
  | [] => ret []
  | m :: ms' =>
      r <- cb st m ;;
      rest <- run_replacer cb (snd r) ms' ;;
      ret ((m, fst r) :: rest)
  end.

(** [s.replace(marker, cb)].  The collecting loop starts by setting
    [marker.lastIndex] to 0 and the failing [exec] that ends it leaves 0
    there again, before the first call of the replacer. *)
Definition replace_marker {S : Type} (s : str) (cb : S -> MatchResult -> M (str * S))
           (init : S) : M str :=
  set_lastIndex 0 ;;
  match replace_matches (length s + 2) marker s 0 with
  | None => throw Unfinished
  | Some ms =>
      rs <- run_replacer cb init ms ;;
      ret (assemble s 0 rs)
  end.

Fixpoint for_each {A : Type} (l : list A) (body : A -> M unit) : M unit :=
  match l with
  | [] => ret tt
  | x :: rest => body x ;; for_each rest body
  end.

(** [a ?? b]. *)
Definition or_else {A : Type} (o : option A) (d : A) : A :=
  match o with Some x => x | None => d end.

(** A string is truthy when it is not empty. *)
Definition truthy (s : str) : bool := negb (str_eqb s []).

(** [inputs[key] = value] on a plain object: an assignment to [__proto__]
    with a string value creates no property. *)
Fixpoint obj_update (key value : str) (o : list (str * str)) : list (str * str) :=
  match o with
  | [] => [(key, value)]
  | (k, v) :: rest =>
      if str_eqb k key then (k, value) :: rest else (k, v) :: obj_update key value rest
  end.

Definition obj_set (key value : str) (o : list (str * str)) : list (str * str) :=
  if str_eqb key (js "__proto__") then o else obj_update key value o.

(** A number in a template literal. *)
Definition decimal (n : N) : str := js (NilEmpty.string_of_uint (N.to_uint n)).

(** The value of a string-valued option when it is present and truthy. *)
Definition if_truthy (o : option str) : option str :=
  match o with
  | Some s => if truthy s then Some s else None
  | None => None
  end.

Definition dquote : str := [ascii_of_nat 34].
Definition newline : str := [ascii_of_nat 10].

(** ** The plugin *)

Section Plugin.
(** [process.cwd()]. *)
Variable cwd : str.
(** The argument of [dnnAscx]. *)
Variable opts : DnnAscxPluginOptions.
(** The configuration that [configResolved] stores in [config]. *)
Variable resolved : ResolvedConfig.
(** fast-glob, asynchronous call of [config] and synchronous call of the
    watch handlers: patterns, ignore list and the disk give the absolute
    paths found. *)
Variable fg : list str -> list str -> (str -> option str) -> list str.
Variable fg_sync : list str -> list str -> (str -> option str) -> list str.

Definition ascxRootDir : str :=
  path.resolve cwd (or_else (Opts.ascxRootDir opts) cwd).

Definition norm (p : str) : str :=
  toLowerCase
    (replace_first (Seq (Plus (is_char slash)) Eol)
       (replace_all (Chr backslash) p [slash]) []).

Definition absPath (p : str) : str :=
  norm (if path.isAbsolute p then p else path.resolve cwd p).

Definition dirToIgnore (dir : option str) : list str :=
  match dir with
  | None => []
  | Some d0 =>
      if truthy d0 then let d := norm d0 in [d; d ++ js "/**"] else []
  end.

(** [Array.from(new Set(arr))]: first occurrences, in order. *)
Fixpoint uniq (arr : list str) : list str :=
  match arr with
  | [] => []
  | x :: rest => x :: filter (fun y => negb (str_eqb y x)) (uniq rest)
  end.

Fixpoint getChunkBySourceEntry (bundle : OutputBundle) (entryAbs : str)
  : option OutputChunk :=
  match bundle with
  | [] => None
  | chunk_item item :: rest =>
      if isEntry item then
        match facadeModuleId item with
        | Some id =>
            if truthy id && str_eqb (path.resolve cwd id) entryAbs
            then Some item
            else getChunkBySourceEntry rest entryAbs
        | None => getChunkBySourceEntry rest entryAbs
        end
      else getChunkBySourceEntry rest entryAbs
  | asset_item _ :: rest => getChunkBySourceEntry rest entryAbs
  end.

Definition toPublicUrl (p : str) : str :=
  let base :=
    replace_first (Seq (Opt (is_char slash)) Eol)
      (or_else (Opts.publicBase opts) (or_else (base resolved) (js "/")))
      (js "/") in
  base ++ replace_first (Seq Bol (Chr slash)) p [].

Definition computeDevOrigin (server : ViteDevServer) : str :=
  match if_truthy (Opts.devOrigin opts) with
  | Some o => replace_first (Seq (Chr slash) Eol) o []
  | None =>
      match if_truthy (server_origin server) with
      | Some origin => replace_first (Seq (Chr slash) Eol) origin []
      | None => js "http://localhost:" ++ decimal (or_else (server_port server) 5173%N)
      end
  end.

(** The first three lines of [writeMirrored]. *)
Definition safeRel (absFilePath : str) : str :=
  let rel := path.relative cwd ascxRootDir absFilePath in
  if startsWith rel (js "..") then path.basename absFilePath else rel.

Definition outPath (outDir absFilePath : str) : str :=
  path.join2 outDir (safeRel absFilePath).

Definition writeMirrored (outDir absFilePath contents : str) : M unit :=
  mkdirSync (path.dirname (outPath outDir absFilePath)) ;;
  writeFileSync (outPath outDir absFilePath) contents.

Definition script_tag (url : str) : str :=
  js "<script type=" ++ dquote ++ js "module" ++ dquote ++ js " src=" ++ dquote
     ++ url ++ dquote ++ js "></script>".

Definition link_tag (css : str) : str :=
  js "<link rel=" ++ dquote ++ js "stylesheet" ++ dquote ++ js " href=" ++ dquote
     ++ css ++ dquote ++ js ">".

Definition defaultRender (ctx : DnnAscxRenderContext) : str :=
  let client :=
    match mode ctx, if_truthy (devClientUrl ctx) with
    | dev, Some url => [script_tag url]
    | _, _ => []
    end in
  let tags := client ++ map link_tag (cssUrls ctx) ++ [script_tag (jsUrl ctx)] in
  join newline tags.

Definition render : DnnAscxRenderContext -> str :=
  or_else (Opts.render opts) defaultRender.

(** A call of the renderer, recorded. *)
Definition call_render (ctx : DnnAscxRenderContext) : M str :=
  emit (EvRender ctx) ;;
  ret (render ctx).

Definition rewriteAscxForDev (original ascxAbs devOrigin : str) : M str :=
  set_lastIndex 0 ;;
  found <- marker_test original ;;
  if negb found then ret original
  else
    set_lastIndex 0 ;;
    let devClientUrl := devOrigin ++ js "/@vite/client" in
    replace_marker original
      (fun (injectedClient : bool) (m : MatchResult) =>
         match group1 m with
         | None => throw TypeError
         | Some entryFromMarker =>
             let entry := replace_first (Seq Bol (Chr slash)) entryFromMarker [] in
             let jsUrl := devOrigin ++ js "/" ++ entry in
             let entryAbs := path.resolve cwd entryFromMarker in
             html <- call_render
                       (mkCtx dev ascxAbs entryFromMarker entryAbs jsUrl []
                              (if injectedClient then None else Some devClientUrl)
                              None) ;;
             ret (html, true)
         end)
      false.

(** The body of the loop of [writeAllDevAscx]. *)
Definition dev_file (devOutAbs devOrigin ascxAbs : str) : M unit :=
  original <- readFileSync ascxAbs ;;
  rewritten <- rewriteAscxForDev original ascxAbs devOrigin ;;
  writeMirrored devOutAbs ascxAbs rewritten.

Definition writeAllDevAscx (server : ViteDevServer) : M unit :=
  let devOutAbs := path.resolve cwd (or_else (Opts.devOutAscxDir opts) (js ".dnn")) in
  let devOrigin := computeDevOrigin server in
  mkdirSync devOutAbs ;;
  all <- get allAscxFiles ;;
  for_each all (dev_file devOutAbs devOrigin).

(** The [while ((m = marker.exec(content)))] loop of [config]. *)
Fixpoint scan_entries (fuel : nat) (content fAbs : str) (inputs : list (str * str))
  : M (list (str * str)) :=
  match fuel with
  | 0 => throw Unfinished
  | S fuel' =>
      m <- marker_exec content ;;
      match m with
      | None => ret inputs
      | Some m =>
          match group1 m with
          | None => throw TypeError
          | Some m1 =>
              let entryAbs := path.resolve cwd m1 in
              let key :=
                replace_all (Cls (fun c => negb (is_word c)))
                  (path.relative cwd cwd entryAbs) (js "_") in
              rs <- get refs ;;
              set_refs (rs ++ [mkRef fAbs entryAbs]) ;;
              scan_entries fuel' content fAbs (obj_set key entryAbs inputs)
          end
      end
  end.

Fixpoint scan_files (l : list str) (inputs : list (str * str)) : M (list (str * str)) :=
  match l with
  | [] => ret inputs
  | fAbs :: rest =>
      content <- readFileSync fAbs ;;
      set_lastIndex 0 ;;
      inputs' <- scan_entries (length content + 2) content fAbs inputs ;;
      scan_files rest inputs'
  end.

(** The ignore list that [config] computes; [outDir] is
    [userConfig.build?.outDir]. *)
Definition config_ignore (outDir : option str) : list str :=
  let buildOutDir := or_else outDir (js "dist") in
  let devOutDir := or_else (Opts.devOutAscxDir opts) (js ".dnn") in
  let prodOutDir := Opts.outAscxDir opts in
  uniq (dirToIgnore (Some buildOutDir) ++ dirToIgnore (Some devOutDir)
          ++ dirToIgnore prodOutDir
          ++ [js "**/node_modules/**"; js "**/.git/**"]).

(** The [config] hook. *)
Definition config (outDir : option str) (env_command : Command) : M ConfigResult :=
  let buildOutDir := or_else outDir (js "dist") in
  let devOutDir := or_else (Opts.devOutAscxDir opts) (js ".dnn") in
  let prodOutDir := Opts.outAscxDir opts in
  let ignore := config_ignore outDir in
  set_dirs ignore buildOutDir devOutDir prodOutDir ;;
  found <- get (fun w => fg (Opts.ascxGlobs opts) ignore (files w)) ;;
  set_allAscxFiles (map norm found) ;;
  match env_command with
  | serve => ret (watch_ignored ignore)
  | cmd_build =>
      set_refs [] ;;
      all <- get allAscxFiles ;;
      inputs <- scan_files all [] ;;
      if or_else (Opts.requireAtLeastOneEntry opts) false && (length inputs =? 0)
      then throw NoEntryMarkers
      else if length inputs =? 0 then ret no_change
      else ret (rollup_input inputs)
  end.

Definition reload : M unit := emit EvReload.

Definition onChange (server : ViteDevServer) (file : str) : M unit :=
  let abs := absPath (toLowerCase file) in
  let absPublicDir := absPath (toLowerCase (publicDir resolved)) ++ js "/" in
  if startsWith abs absPublicDir then
    original <- readFileSync abs ;;
    let dirWithoutPublicDir := absPath (replace_str abs absPublicDir []) in
    out <- get devOutDir ;;
    writeMirrored (absPath out) dirWithoutPublicDir original ;;
    reload
  else if endsWith abs (js ".ascx") then
    all <- get allAscxFiles ;;
    if negb (includes all abs) then ret tt
    else
      let devOrigin := computeDevOrigin server in
      original <- readFileSync abs ;;
      rewritten <- rewriteAscxForDev original abs devOrigin ;;
      out <- get devOutDir ;;
      writeMirrored (absPath out) abs rewritten ;;
      reload
  else ret tt.

(** The handler registered for ["add"]; the one for ["unlink"] has the
    same body. *)
Definition onAdd (server : ViteDevServer) (file : str) : M unit :=
  if endsWith (toLowerCase file) (js ".ascx") then
    ign <- get ignore ;;
    found <- get (fun w => fg_sync (Opts.ascxGlobs opts) ign (files w)) ;;
    set_allAscxFiles (map norm found) ;;
    writeAllDevAscx server ;;
    reload
  else ret tt.

Definition onUnlink (server : ViteDevServer) (file : str) : M unit :=
  if endsWith (toLowerCase file) (js ".ascx") then
    ign <- get ignore ;;
    found <- get (fun w => fg_sync (Opts.ascxGlobs opts) ign (files w)) ;;
    set_allAscxFiles (map norm found) ;;
    writeAllDevAscx server ;;
    reload
  else ret tt.

Definition configureServer (server : ViteDevServer) : M unit :=
  writeAllDevAscx server ;;
  emit (EvWatch (js "**/*.ascx")).

(** The replacer of [generateBundle]. *)
Definition build_replacer (bundle : OutputBundle) (fAbs : str) (_ : unit) (m : MatchResult)
  : M (str * unit) :=
  match group1 m with
  | None => throw TypeError
  | Some entryFromMarker =>
      let entryAbs := path.resolve cwd entryFromMarker in
      match getChunkBySourceEntry bundle entryAbs with
      | None => ret (js "<!-- vite:missing-entry " ++ entryFromMarker ++ js " -->", tt)
      | Some chunk =>
          let jsUrl := toPublicUrl (fileName chunk) in
          let cssUrls :=
            match importedCss chunk with
            | Some css => map toPublicUrl css
            | None => []
            end in
          html <- call_render
                    (mkCtx build fAbs entryFromMarker entryAbs jsUrl cssUrls
                           None (Some chunk)) ;;
          ret (html, tt)
      end
  end.

(** The replacement pass of [generateBundle] on one file. *)
Definition build_rewrite (bundle : OutputBundle) (fAbs original : str) : M str :=
  replace_marker original (build_replacer bundle fAbs) tt.

(** The body of the loop of [generateBundle]. *)
Definition bundle_file (bundle : OutputBundle) (outDir fAbs : str) : M unit :=
  original <- readFileSync fAbs ;;
  set_lastIndex 0 ;;
  hasMarker <- marker_test original ;;
  set_lastIndex 0 ;;
  if negb hasMarker then writeMirrored outDir fAbs original
  else
    rewritten <- build_rewrite bundle fAbs original ;;
    writeMirrored outDir fAbs rewritten.

Definition generateBundle (bundle : OutputBundle) : M unit :=
  match command resolved with
  | serve => ret tt
  | cmd_build =>
      let outDir :=
        path.resolve cwd (or_else (Opts.outAscxDir opts) (build_outDir resolved)) in
      mkdirSync outDir ;;
      all <- get allAscxFiles ;;
      for_each all (bundle_file bundle outDir)
  end.

(** The hooks and watch events, as Vite delivers them. *)
Inductive Hook : Type :=
| on_config (outDir : option str) (env_command : Command)
| on_configureServer (server : ViteDevServer)
| on_change (server : ViteDevServer) (file : str)
| on_add (server : ViteDevServer) (file : str)
| on_unlink (server : ViteDevServer) (file : str)
| on_generateBundle (bundle : OutputBundle).

Definition run_hook (h : Hook) : M unit :=
  match h with
  | on_config outDir env_command => config outDir env_command ;; ret tt
  | on_configureServer server => configureServer server
  | on_change server file => onChange server file
  | on_add server file => onAdd server file
  | on_unlink server file => onUnlink server file
  | on_generateBundle bundle => generateBundle bundle
  end.

(** The world after a sequence of hooks; an exception ends one hook, not
    the sequence. *)
Fixpoint run_hooks (hs : list Hook) (w : World) : World :=
  match hs with
  | [] => w
  | h :: rest => run_hooks rest (snd (run_hook h w))
  end.

End Plugin.

(** The world in which the plugin object is created. *)
Definition initial_world (disk : str -> option str) : World :=
  mkWorld disk 0 [] [] [] [] [] None [].

(** ** The disk, with directories *)

(** The world of the hooks records a call of [fs.mkdirSync] or
    [fs.writeFileSync] and takes it to succeed.  On the disk below a path
    names a file, a directory or nothing, and the two calls fail as Node's
    do when a file or a directory is in the way.  As in the world, a path
    names a node by its text, and the directory above a path is its
    [path.dirname]; the root and the working directory always exist.
    Access rights and symbolic links are not modelled. *)
Module Disk.

Inductive Node : Type :=
| File (contents : str)
| Dir.

Inductive Error : Type :=
| EEXIST (p : str)
| ENOTDIR (p : str)
| EISDIR (p : str)
| ENOENT (p : str).

Definition t : Type := str -> option Node.

Definition empty : t := fun _ => None.

Definition put (p : str) (n : Node) (d : t) : t :=
  fun q => if str_eqb q p then Some n else d q.

(** The root and the working directory. *)
Definition is_root (p : str) : bool := str_eqb p (js "/") || str_eqb p path.dot.

Definition is_dir (d : t) (p : str) : bool :=
  is_root p || match d p with Some Dir => true | _ => false end.

Definition is_file (d : t) (p : str) : bool :=
  negb (is_root p) && match d p with Some (File _) => true | _ => false end.

(** [p] and the directories above it, nearest first, up to the root or the
    working directory; [fuel] bounds their number. *)
Fixpoint ancestors (fuel : nat) (p : str) : list str :=
  match fuel with
  | 0 => []
  | S fuel' => if is_root p then [] else p :: ancestors fuel' (path.dirname p)
  end.

(** A path has no more directories above it than it has characters
    ([ancestors_fuel]). *)
Definition above (p : str) : list str := ancestors (S (length p)) p.

(** [fs.mkdirSync(p, { recursive: true })]: makes [p] and the directories
    above it that are missing; throws EEXIST when [p] is a file and ENOTDIR
    when a file stands where a directory above it should be. *)
Definition mkdirSync (p : str) (d : t) : Error + t :=
  match p with
  | [] => inl (ENOENT p)
  | _ :: _ =>
      match find (is_file d) (above p) with
      | Some q => inl (if str_eqb q p then EEXIST p else ENOTDIR p)
      | None => inr (fold_right (fun q d' => put q Dir d') d (above p))
      end
  end.

(** [fs.writeFileSync(p, contents, "utf8")]: throws EISDIR when [p] is a
    directory, ENOTDIR or ENOENT when the directory above [p] is a file or
    is missing; otherwise [p] is now a file with these contents. *)
Definition writeFileSync (p contents : str) (d : t) : Error + t :=
  match p with
  | [] => inl (ENOENT p)
  | _ :: _ =>
      if is_dir d p then inl (EISDIR p)
      else if is_dir d (path.dirname p) then inr (put p (File contents) d)
      else if is_file d (path.dirname p) then inl (ENOTDIR p)
      else inl (ENOENT p)
  end.

(** [writeMirrored] on this disk: an exception of the first call ends
    it. *)
Definition writeMirrored (cwd : str) (opts : DnnAscxPluginOptions)
           (outDir absFilePath contents : str) (d : t) : Error + t :=
  let rel := path.relative cwd (ascxRootDir cwd opts) absFilePath in
  let safeRel := if startsWith rel (js "..") then path.basename absFilePath else rel in
  let outPath := path.join2 outDir safeRel in
  match mkdirSync (path.dirname outPath) d with
  | inl e => inl e
  | inr d1 => writeFileSync outPath contents d1
  end.

End Disk.

(** ** Notions used to state the properties *)

(** [g0 p1 g1 ... pN gN]. *)
Fixpoint weave (gaps pieces : list str) : str :=
  match gaps, pieces with
  | g :: gs, p :: ps => g ++ p ++ weave gs ps
  | g :: _, [] => g
  | [], _ => []
  end.

(** The marker occurrences of a text from index [i] on, in text order: each
    is a match of the pattern, no match begins in the stretch before it,
    the next one is looked for from its end on, and no match begins after
    the last one. *)
Inductive occurrences_from (s : str) : nat -> list MatchResult -> Prop :=
| occ_nil i :
    (forall j, i <= j <= length s -> match_at marker j (skipn j s) = None) ->
    occurrences_from s i []
| occ_cons i m ms :
    i <= index m ->
    (forall j, i <= j < index m -> match_at marker j (skipn j s) = None) ->
    match_at marker (index m) (skipn (index m) s) = Some (endIndex m, group1 m) ->
    index m < endIndex m <= length s ->
    matched m = substring s (index m) (endIndex m) ->
    occurrences_from s (endIndex m) ms ->
    occurrences_from s i (m :: ms).

(** The text captured by group 1. *)
Definition captured (m : MatchResult) : str := or_else (group1 m) [].

(** The new events of a run. *)
Definition new_events (w w' : World) : list Event := skipn (length (log w)) (log w').

Definition writes (evs : list Event) : list (str * str) :=
  flat_map (fun e => match e with EvWrite f c => [(f, c)] | _ => [] end) evs.

Definition renders (evs : list Event) : list DnnAscxRenderContext :=
  flat_map (fun e => match e with EvRender c => [c] | _ => [] end) evs.

(** The segments of [path.normalize p]. *)
Definition path_segs (p : str) : list str :=
  path.normalize_segs (negb (path.isAbsolute p)) p.

(** A segment that names a file or directory. *)
Definition plain_seg (seg : str) : bool :=
  negb (str_eqb seg []) && negb (str_eqb seg path.dot) && negb (str_eqb seg path.dotdot)
  && negb (existsb (is_char slash) seg).

(** [p] is [root] or lies below it. *)
Definition inside (root p : str) : Prop :=
  path.isAbsolute p = path.isAbsolute root /\
  exists rest, forallb plain_seg rest = true /\ path_segs p = path_segs root ++ rest.

(** Without its last character when that is a separator. *)
Fixpoint chop_trailing (s : str) : str :=
  match s with
  | [] => []
  | c :: t =>
      match t with
      | [] => if Ascii.eqb c slash then [] else [c]
      | _ :: _ => c :: chop_trailing t
      end
  end.

(** Without its first character when that is a separator. *)
Definition chop_leading (s : str) : str :=
  match s with
  | c :: t => if Ascii.eqb c slash then t else s
  | [] => []
  end.

(** Without any separator at its end, at its start. *)
Definition strip_trailing (s : str) : str := rev (path.dropwhile (is_char slash) (rev s)).
Definition strip_leading (s : str) : str := path.dropwhile (is_char slash) s.

(** The stretches of [s] between consecutive results, from [pos] on. *)
Fixpoint gaps (s : str) (pos : nat) (ms : list MatchResult) : list str :=
  match ms with
  | [] => [skipn pos s]
  | m :: rest => substring s pos (index m) :: gaps s (endIndex m) rest
  end.

(** The marker occurrences that the collecting loop of [replace] finds. *)
Definition occurrences (s : str) : list MatchResult :=
  or_else (replace_matches (length s + 2) marker s 0) [].

(** The Render Contexts and replacement texts, occurrence by occurrence. *)
Section Described.
Variable cwd : str.
Variable opts : DnnAscxPluginOptions.
Variable resolved : ResolvedConfig.

(** In dev mode; [first] tells the first occurrence of a file from the
    others. *)
Definition dev_context (ascxAbs devOrigin : str) (first : bool) (m : MatchResult)
  : DnnAscxRenderContext :=
  mkCtx dev ascxAbs (captured m) (path.resolve cwd (captured m))
        (devOrigin ++ js "/" ++ replace_first (Seq Bol (Chr slash)) (captured m) [])
        []
        (if first then Some (devOrigin ++ js "/@vite/client") else None)
        None.

Definition dev_contexts (ascxAbs devOrigin : str) (ms : list MatchResult)
  : list DnnAscxRenderContext :=
  match ms with
  | [] => []
  | m :: rest =>
      dev_context ascxAbs devOrigin true m
        :: map (dev_context ascxAbs devOrigin false) rest
  end.

(** In build mode an occurrence has a context when an entry chunk of the
    bundle comes from the module it names. *)
Definition build_context (bundle : OutputBundle) (fAbs : str) (m : MatchResult)
  : option DnnAscxRenderContext :=
  match getChunkBySourceEntry cwd bundle (path.resolve cwd (captured m)) with
  | None => None
  | Some chunk =>
      Some (mkCtx build fAbs (captured m) (path.resolve cwd (captured m))
                  (toPublicUrl opts resolved (fileName chunk))
                  (match importedCss chunk with
                   | Some css => map (toPublicUrl opts resolved) css
                   | None => []
                   end)
                  None (Some chunk))
  end.

(** The Rollup input that [config] registers for an occurrence. *)
Definition input_key (m : MatchResult) : str :=
  replace_all (Cls (fun c => negb (is_word c)))
    (path.relative cwd cwd (path.resolve cwd (captured m))) (js "_").

Definition add_input (inputs : list (str * str)) (m : MatchResult) : list (str * str) :=
  obj_set (input_key m) (path.resolve cwd (captured m)) inputs.

Definition missing_entry (m : MatchResult) : str :=
  js "<!-- vite:missing-entry " ++ captured m ++ js " -->".

Definition build_replacement (bundle : OutputBundle) (fAbs : str) (m : MatchResult) : str :=
  match build_context bundle fAbs m with
  | Some ctx => render opts ctx
  | None => missing_entry m
  end.

Definition build_contexts (bundle : OutputBundle) (fAbs : str) (ms : list MatchResult)
  : list DnnAscxRenderContext :=
  flat_map (fun m => match build_context bundle fAbs m with
                     | Some ctx => [ctx]
                     | None => []
                     end) ms.
End Described.


(** A small project used for examples. *)
Module Sample.
Definition cwd : str := js "/proj".

Definition opts : DnnAscxPluginOptions :=
  Opts.mk [js "**/*.ascx"] None (Some (js "/Portals/_default/Skins/MySkin/"))
          None None None None None.

Definition strict : DnnAscxPluginOptions :=
  Opts.mk [js "**/*.ascx"] None None None None None (Some true) None.

Definition resolved : ResolvedConfig :=
  mkConfig cmd_build None (js "/proj/public") (js "dist").

Definition doubled : DnnAscxPluginOptions :=
  Opts.mk [js "**/*.ascx"] None (Some (js "/Skins//")) None None None None None.

Definition server : ViteDevServer := mkServer None None.

Definition home : str := js "<div><!-- @vite:entry src/home.js --></div>".
Definition two : str :=
  js "<!-- @vite:entry src/a.js --><hr><!-- @vite:entry src/b.js -->".
Definition plain : str := js "<p>hello</p>".

Definition disk (p : str) : option str :=
  if str_eqb p (js "/proj/home.ascx") then Some home
  else if str_eqb p (js "/proj/plain.ascx") then Some plain
  else None.

Definition world : World :=
  mkWorld disk 0 [js "/proj/home.ascx"; js "/proj/plain.ascx"] [] []
          (js "dist") (js ".dnn") None [].

Definition home_chunk : OutputChunk :=
  mkChunk (js "assets/home.abc123.js") true (Some (js "/proj/src/home.js"))
          (Some [js "assets/home.abc123.css"]).

Definition fg_all (_ _ : list str) (_ : str -> option str) : list str :=
  [js "/proj/Home.ascx"; js "/proj/plain.ascx"].

Definition fg_plain (_ _ : list str) (_ : str -> option str) : list str :=
  [js "/proj/Plain.ascx"].
End Sample.

(** Exactly one separator stands between the base and the artifact path. *)
Definition one_separator_between (b p url : str) : Prop :=
  url = strip_trailing b ++ [slash] ++ strip_leading p.

(** A step of the plugin that sends no reload signal and leaves the set of
    tracked files as it is. *)
Definition quiet_rel (w w' : World) : Prop :=
  allAscxFiles w' = allAscxFiles w /\
  exists evs, log w' = log w ++ evs /\ ~ In EvReload evs.

Definition quiet {A : Type} (m : M A) : Prop := forall w, quiet_rel w (snd (m w)).

(** What a watch handler did, read off the events [evs] it added: nothing
    at all; or some work that ended in an exception before any reload
    signal; or some work followed by the reload signal as the last
    event. *)
Definition reload_comes_last (m : M unit) : Prop :=
  forall w,
    exists evs,
      log (snd (m w)) = log w ++ evs /\
      (forall pre post, evs = pre ++ EvReload :: post -> post = [] /\ ~ In EvReload pre) /\
      (fst (m w) = inr tt -> writes evs <> [] -> exists pre, evs = pre ++ [EvReload]).

(** A step that, unless it ends in an exception, ends with the reload
    signal, sent once. *)
Definition ends_in_reload {A : Type} (m : M A) : Prop :=
  forall w,
    exists evs,
      log (snd (m w)) = log w ++ evs /\
      (((exists e, fst (m w) = inl e) /\ ~ In EvReload evs) \/
       (exists pre, evs = pre ++ [EvReload] /\ ~ In EvReload pre)).

(** A backslash becomes a slash. *)
Definition bs_to_slash (c : ascii) : ascii :=
  if Ascii.eqb c backslash then slash else c.

(** A step that leaves the set of tracked files as it is. *)
Definition keeps {A : Type} (m : M A) : Prop :=
  forall w, allAscxFiles (snd (m w)) = allAscxFiles w.

(** The path an event names, made absolute. *)
Definition absolute (cwd p : str) : str :=
  if path.isAbsolute p then p else path.resolve cwd p.

(** The normal form that [norm] computes: forward slashes only, no
    separator at the end, lower case. *)
Definition normal_form (t : str) : Prop :=
  existsb (is_char backslash) t = false /\
  endsWith t (js "/") = false /\
  toLowerCase t = t.


(** An item of the bundle that [getChunkBySourceEntry] accepts for
    [entryAbs]: an entry chunk whose [facadeModuleId] is not empty and
    resolves to it. *)
Definition is_source_entry (cwd entryAbs : str) (item : BundleItem) : bool :=
  match item with
  | chunk_item c =>
      isEntry c &&
      match facadeModuleId c with
      | Some id => truthy id && str_eqb (path.resolve cwd id) entryAbs
      | None => false
      end
  | asset_item _ => false
  end.

(** The segments [a] are the first segments of [b]. *)
Fixpoint is_prefix (a b : list str) : bool :=
  match a, b with
  | [], _ => true
  | x :: a', y :: b' => str_eqb x y && is_prefix a' b'
  | _ :: _, [] => false
  end.

(** After resolution, [p] is the directory [root] or lies below it. *)
Definition below (cwd root p : str) : bool :=
  is_prefix (path.resolve_segs cwd root) (path.resolve_segs cwd p).

(** The occurrences of the marker in the file [f] of a disk, and the entry
    references that [config] records for them. *)
Definition file_occurrences (disk : str -> option str) (f : str) : list MatchResult :=
  occurrences (or_else (disk f) []).

Definition file_refs (cwd : str) (disk : str -> option str) (f : str) : list EntryRef :=
  map (fun m => mkRef f (path.resolve cwd (captured m))) (file_occurrences disk f).



(** The text of a marker: [<!--], white space, [@vite:entry], white space,
    the reference, white space, [-->]. *)
Definition marker_text (ws1 ws2 ref ws3 : str) : str :=
  js "<!--" ++ ws1 ++ js "@vite:entry" ++ ws2 ++ ref ++ ws3 ++ js "-->".

(** The white space may be missing before [@vite:entry] and after the
    reference, not between the two; the reference has at least one
    character and no white space. *)
Definition well_formed (ws1 ws2 ref ws3 : str) : Prop :=
  forallb is_space ws1 = true /\
  forallb is_space ws2 = true /\ ws2 <> [] /\
  forallb (fun c => negb (is_space c)) ref = true /\ ref <> [] /\
  forallb is_space ws3 = true.

(** The least number of characters a pattern consumes, and whether a
    successful match always sets capture group 1. *)
Fixpoint min_len (r : regex) : nat :=
  match r with
  | Chr _ | Cls _ | Plus _ => 1
  | Grp r1 => min_len r1
  | Seq r1 r2 => min_len r1 + min_len r2
  | _ => 0
  end.

Fixpoint has_grp (r : regex) : bool :=
  match r with
  | Grp _ => true
  | Seq r1 r2 => has_grp r1 || has_grp r2
  | _ => false
  end.

(** * Properties *)

(** ** Strings and lists *)

Lemma str_eqb_spec (a b : str) : reflect (a = b) (str_eqb a b).
Proof.
  revert b; induction a as [|x a IH]; intros [|y b]; simpl;
    try (constructor; congruence).
  destruct (Ascii.eqb_spec x y) as [->|Hxy]; simpl.
  - destruct (IH b) as [->|Hab]; constructor; congruence.
  - constructor; congruence.
Qed.

Lemma str_eqb_refl (a : str) : str_eqb a a = true.
Proof. destruct (str_eqb_spec a a); congruence. Qed.

Lemma str_eqb_eq (a b : str) : str_eqb a b = true <-> a = b.
Proof. destruct (str_eqb_spec a b); split; congruence. Qed.

Lemma str_eqb_neq (a b : str) : str_eqb a b = false <-> a <> b.
Proof. destruct (str_eqb_spec a b); split; congruence. Qed.

Lemma includes_In (arr : list str) (x : str) : includes arr x = true <-> In x arr.
Proof.
  unfold includes; rewrite existsb_exists; split.
  - intros [y [Hin Heq]]; apply str_eqb_eq in Heq; subst; assumption.
  - intros Hin; exists x; split; [assumption | apply str_eqb_refl].
Qed.

Lemma skipn_app_length {A : Type} (pre suf : list A) : skipn (length pre) (pre ++ suf) = suf.
Proof. induction pre; simpl; auto. Qed.

Lemma firstn_app_length {A : Type} (pre suf : list A) : firstn (length pre) (pre ++ suf) = pre.
Proof. induction pre; simpl; congruence. Qed.

Lemma substring_mid (a b c : str) :
  substring (a ++ b ++ c) (length a) (length a + length b) = b.
Proof.
  unfold substring. rewrite skipn_app_length.
  replace (length a + length b - length a) with (length b) by lia.
  apply firstn_app_length.
Qed.

Lemma substring_prefix (p : nat) (a c : str) :
  p <= length a -> substring (a ++ c) p (length a) = skipn p a.
Proof.
  intros Hp. unfold substring.
  rewrite skipn_app. replace (p - length a) with 0 by lia. simpl.
  rewrite firstn_app. rewrite length_skipn.
  replace (length a - p - (length a - p)) with 0 by lia. simpl.
  rewrite app_nil_r. apply firstn_all2. rewrite length_skipn. lia.
Qed.

Lemma skipn_prefix_app (p : nat) (a c : str) :
  p <= length a -> skipn p (a ++ c) = skipn p a ++ c.
Proof.
  intros Hp. rewrite skipn_app. replace (p - length a) with 0 by lia. reflexivity.
Qed.

(** ** The matcher *)

Lemma star_inv (A : Type) (f : ascii -> bool) (suf : str) :
  forall (i : nat) (cap : option str) (k : cont A) (a : A),
    star f i suf cap k = Some a ->
    exists pre rest, suf = pre ++ rest /\ k (i + length pre) rest cap = Some a.
Proof.
  induction suf as [|x t IH]; intros i cap k a H; simpl in H.
  - exists [], []; simpl; rewrite Nat.add_0_r; auto.
  - destruct (f x).
    + destruct (star f (S i) t cap k) eqn:E.
      * inversion H; subst. apply IH in E. destruct E as [pre [rest [-> Hk]]].
        exists (x :: pre), rest; simpl; split; [reflexivity|].
        replace (i + S (length pre)) with (S i + length pre) by lia. assumption.
      * exists [], (x :: t); simpl; rewrite Nat.add_0_r; auto.
    + exists [], (x :: t); simpl; rewrite Nat.add_0_r; auto.
Qed.

Lemma rmatch_inv (r : regex) :
  forall (A : Type) (i : nat) (suf : str) (cap : option str) (k : cont A) (a : A),
    rmatch r i suf cap k = Some a ->
    exists pre rest c,
      suf = pre ++ rest /\ k (i + length pre) rest c = Some a /\
      min_len r <= length pre /\
      (c = None -> cap = None /\ has_grp r = false).
Proof.
  induction r as [ |c|f|f|f|f| | |r1 IH1|r1 IH1 r2 IH2]; intros A i suf cap k a H; simpl in H.
  - exists [], suf, cap; simpl; rewrite Nat.add_0_r; auto.
  - destruct suf as [|x t]; [discriminate|]. destruct (Ascii.eqb x c); [|discriminate].
    exists [x], t, cap; simpl; replace (i + 1) with (S i) by lia; auto.
  - destruct suf as [|x t]; [discriminate|]. destruct (f x); [|discriminate].
    exists [x], t, cap; simpl; replace (i + 1) with (S i) by lia; auto.
  - apply star_inv in H. destruct H as [pre [rest [-> Hk]]].
    exists pre, rest, cap; simpl; repeat split; auto; lia.
  - destruct suf as [|x t]; [discriminate|]. destruct (f x); [|discriminate].
    apply star_inv in H. destruct H as [pre [rest [-> Hk]]].
    exists (x :: pre), rest, cap; simpl; repeat split; auto; try lia.
    replace (i + S (length pre)) with (S i + length pre) by lia. assumption.
  - destruct suf as [|x t].
    + exists [], [], cap; simpl; rewrite Nat.add_0_r; auto.
    + destruct (f x).
      * destruct (k (S i) t cap) eqn:E.
        -- inversion H; subst. exists [x], t, cap; simpl.
           replace (i + 1) with (S i) by lia; auto.
        -- exists [], (x :: t), cap; simpl; rewrite Nat.add_0_r; auto.
      * exists [], (x :: t), cap; simpl; rewrite Nat.add_0_r; auto.
  - destruct (i =? 0); [|discriminate].
    exists [], suf, cap; simpl; rewrite Nat.add_0_r; auto.
  - destruct suf; [|discriminate].
    exists [], [], cap; simpl; rewrite Nat.add_0_r; auto.
  - apply IH1 in H. destruct H as [pre [rest [c [-> [Hk [Hlen _]]]]]].
    eexists pre, rest, _; simpl. repeat split; eauto; discriminate.
  - apply IH1 in H. destruct H as [pre1 [rest1 [c1 [-> [Hk1 [Hl1 Hc1]]]]]].
    apply IH2 in Hk1. destruct Hk1 as [pre2 [rest2 [c2 [-> [Hk2 [Hl2 Hc2]]]]]].
    exists (pre1 ++ pre2), rest2, c2. rewrite length_app, <- app_assoc.
    repeat split; auto.
    + rewrite Nat.add_assoc. assumption.
    + simpl; lia.
    + apply Hc2 in H. destruct H as [H _]. apply Hc1 in H. tauto.
    + simpl. destruct (Hc2 H) as [H1 ->]. destruct (Hc1 H1) as [_ ->]. reflexivity.
Qed.

Lemma match_at_inv (r : regex) (i : nat) (suf : str) (e : nat) (c : option str) :
  match_at r i suf = Some (e, c) ->
  exists pre rest,
    suf = pre ++ rest /\ e = i + length pre /\ min_len r <= length pre /\
    (has_grp r = true -> c <> None).
Proof.
  unfold match_at. intros H. apply rmatch_inv in H.
  destruct H as [pre [rest [c' [-> [Hk [Hl Hc]]]]]]. inversion Hk; subst.
  exists pre, rest; repeat split; auto.
  intros Hg Hn. destruct (Hc Hn) as [_ Hf]. congruence.
Qed.

(** ** [exec] *)

Lemma scan_some (r : regex) (suf : str) :
  forall (i : nat) (m : MatchResult),
    scan r i suf = Some m ->
    exists skipped pre rest,
      suf = skipped ++ pre ++ rest /\
      index m = i + length skipped /\
      endIndex m = index m + length pre /\
      matched m = pre /\
      min_len r <= length pre /\
      (has_grp r = true -> group1 m <> None) /\
      match_at r (index m) (pre ++ rest) = Some (endIndex m, group1 m) /\
      (forall j, j < length skipped -> match_at r (i + j) (skipn j suf) = None).
Proof.
  induction suf as [|x t IH]; intros i m H; simpl in H.
  - destruct (match_at r i []) as [[e c]|] eqn:E; [|discriminate].
    inversion H; subst; clear H. pose proof E as E'. apply match_at_inv in E'.
    destruct E' as [pre [rest [Hs [-> [Hl Hg]]]]].
    symmetry in Hs. apply app_eq_nil in Hs. destruct Hs as [-> ->].
    exists [], [], []; simpl. rewrite !Nat.add_0_r in *.
    repeat split; auto; try (intros j Hj; simpl in Hj; lia).
    apply firstn_nil.
  - destruct (match_at r i (x :: t)) as [[e c]|] eqn:E.
    + inversion H; subst; clear H. pose proof E as E'. apply match_at_inv in E'.
      destruct E' as [pre [rest [Hs [-> [Hl Hg]]]]].
      exists [], pre, rest; simpl. rewrite Nat.add_0_r.
      repeat split; auto.
      * rewrite Hs. replace (i + length pre - i) with (length pre) by lia.
        apply firstn_app_length.
      * rewrite <- Hs. assumption.
      * intros j Hj; lia.
    + apply IH in H.
      destruct H as [sk [pre [rest [-> [Hi [He [Hm [Hl [Hg [Hat Hno]]]]]]]]]].
      exists (x :: sk), pre, rest; simpl. repeat split; auto; try lia.
      intros [|j] Hj.
      * rewrite Nat.add_0_r. simpl. assumption.
      * simpl. replace (i + S j) with (S i + j) by lia. apply Hno. lia.
Qed.

Lemma scan_none (r : regex) (suf : str) :
  forall (i : nat),
    scan r i suf = None ->
    forall j, j <= length suf -> match_at r (i + j) (skipn j suf) = None.
Proof.
  induction suf as [|x t IH]; intros i H j Hj; simpl in H.
  - destruct (match_at r i []) as [[e c]|] eqn:E; [discriminate|].
    simpl in Hj. replace j with 0 by lia. rewrite Nat.add_0_r. assumption.
  - destruct (match_at r i (x :: t)) as [[e c]|] eqn:E; [discriminate|].
    destruct j as [|j].
    + rewrite Nat.add_0_r. assumption.
    + simpl. replace (i + S j) with (S i + j) by lia. apply IH; [assumption|].
      simpl in Hj; lia.
Qed.

Lemma exec_at (r : regex) (pre suf : str) :
  exec r (pre ++ suf) (length pre) = scan r (length pre) suf.
Proof.
  unfold exec. rewrite length_app.
  destruct (Nat.ltb_spec (length pre + length suf) (length pre)); [lia|].
  rewrite skipn_app_length. reflexivity.
Qed.

Lemma exec_beyond (r : regex) (s : str) (i : nat) : length s < i -> exec r s i = None.
Proof.
  intros H. unfold exec. destruct (Nat.ltb_spec (length s) i); [reflexivity | lia].
Qed.

(** What a successful [exec] from the end of [pre] says about the text. *)
Lemma exec_some (r : regex) (pre suf : str) (m : MatchResult) :
  exec r (pre ++ suf) (length pre) = Some m ->
  exists skipped mid rest,
    suf = skipped ++ mid ++ rest /\
    index m = length pre + length skipped /\
    endIndex m = index m + length mid /\
    matched m = mid /\
    min_len r <= length mid /\
    (has_grp r = true -> group1 m <> None) /\
    match_at r (index m) (mid ++ rest) = Some (endIndex m, group1 m) /\
    (forall j, j < length skipped ->
               match_at r (length pre + j) (skipn j suf) = None).
Proof. rewrite exec_at. apply scan_some. Qed.

Lemma exec_some_at (r : regex) (s : str) (i : nat) (m : MatchResult) :
  exec r s i = Some m ->
  i <= index m /\ index m <= endIndex m /\ endIndex m <= length s /\
  index m + min_len r <= endIndex m /\
  matched m = substring s (index m) (endIndex m) /\
  (has_grp r = true -> group1 m <> None) /\
  match_at r (index m) (skipn (index m) s) = Some (endIndex m, group1 m) /\
  (forall j, i <= j < index m -> match_at r j (skipn j s) = None).
Proof.
  intros H.
  assert (Hi : i <= length s).
  { destruct (Nat.le_gt_cases i (length s)); [assumption|].
    rewrite exec_beyond in H by assumption. discriminate. }
  assert (Hpre : length (firstn i s) = i) by (apply firstn_length_le; assumption).
  assert (H' : exec r (firstn i s ++ skipn i s) (length (firstn i s)) = Some m).
  { rewrite firstn_skipn, Hpre. assumption. }
  apply exec_some in H'.
  destruct H' as [sk [mid [rest [Hs [Hx [He [Hm [Hl [Hg [Hat Hno]]]]]]]]]].
  rewrite Hpre in *.
  assert (Hall : s = (firstn i s ++ sk) ++ mid ++ rest).
  { rewrite <- app_assoc, <- Hs. symmetry; apply firstn_skipn. }
  assert (Hlen : length (firstn i s ++ sk) = index m).
  { rewrite length_app, Hpre. lia. }
  assert (Hskip : skipn (index m) s = mid ++ rest).
  { rewrite Hall at 1. rewrite <- Hlen. apply skipn_app_length. }
  repeat split; try lia.
  - rewrite Hall at 1. rewrite !length_app. lia.
  - rewrite Hm, Hall, He, <- Hlen. symmetry. apply substring_mid.
  - assumption.
  - rewrite Hskip. assumption.
  - intros j [Hj1 Hj2]. specialize (Hno (j - i)).
    replace (i + (j - i)) with j in Hno by lia.
    rewrite skipn_skipn in Hno. replace (j - i + i) with j in Hno by lia.
    apply Hno. lia.
Qed.

Lemma exec_none_at (r : regex) (s : str) (i : nat) :
  exec r s i = None ->
  forall j, i <= j <= length s -> match_at r j (skipn j s) = None.
Proof.
  intros H j [Hj1 Hj2].
  unfold exec in H. destruct (Nat.ltb_spec (length s) i); [lia|].
  pose proof (@scan_none r (skipn i s) i H (j - i)) as Hn.
  rewrite length_skipn in Hn.
  replace (i + (j - i)) with j in Hn by lia.
  rewrite skipn_skipn in Hn. replace (j - i + i) with j in Hn by lia.
  apply Hn. lia.
Qed.

(** The collecting loop of [replace] ends for every pattern. *)
Lemma replace_matches_some (r : regex) (s : str) (fuel : nat) :
  forall i, 1 <= fuel -> length s + 2 <= fuel + i ->
            exists ms, replace_matches fuel r s i = Some ms.
Proof.
  induction fuel as [|fuel IH]; intros i Hf Hsum; [lia|]. simpl.
  destruct (exec r s i) as [m|] eqn:E; [|eexists; reflexivity].
  apply exec_some_at in E. destruct E as [Hi [Hie [He _]]].
  destruct (IH (if endIndex m =? index m then S (endIndex m) else endIndex m))
    as [ms Hms].
  - lia.
  - destruct (Nat.eqb_spec (endIndex m) (index m)); lia.
  - rewrite Hms. eexists; reflexivity.
Qed.

Lemma replace_matches_total (r : regex) (s : str) :
  replace_matches (length s + 2) r s 0 <> None.
Proof.
  destruct (@replace_matches_some r s (length s + 2) 0) as [ms H];
    [lia | lia | congruence].
Qed.

(** With more fuel the loop gives the same list. *)
Lemma replace_matches_more (r : regex) (s : str) (fuel : nat) :
  forall i ms fuel', replace_matches fuel r s i = Some ms -> fuel <= fuel' ->
                     replace_matches fuel' r s i = Some ms.
Proof.
  induction fuel as [|fuel IH]; intros i ms fuel' H Hle; [discriminate|].
  destruct fuel' as [|fuel']; [lia|]. simpl in *.
  destruct (exec r s i) as [m|]; [|assumption].
  destruct (replace_matches fuel r s _) as [ms'|] eqn:E; [|discriminate].
  erewrite IH; eauto. lia.
Qed.

(** ** The marker *)

Lemma marker_min_len : min_len marker = 20.
Proof. reflexivity. Qed.

Lemma marker_has_grp : has_grp marker = true.
Proof. reflexivity. Qed.

(** The collecting loop finds the occurrences of the marker. *)
Lemma replace_matches_occurrences (s : str) (fuel : nat) :
  forall i ms, replace_matches fuel marker s i = Some ms -> occurrences_from s i ms.
Proof.
  induction fuel as [|fuel IH]; intros i ms H; [discriminate|]. simpl in H.
  destruct (exec marker s i) as [m|] eqn:E.
  - pose proof (exec_some_at _ _ _ E) as [Hi [Hie [He [Hmin [Hm [Hg [Hat Hno]]]]]]].
    rewrite marker_min_len in Hmin.
    destruct (Nat.eqb_spec (endIndex m) (index m)); [lia|].
    destruct (replace_matches fuel marker s (endIndex m)) as [ms'|] eqn:E'; [|discriminate].
    inversion H; subst. constructor; auto. lia.
  - inversion H; subst. constructor. apply exec_none_at. assumption.
Qed.

Lemma occurrences_spec (s : str) :
  replace_matches (length s + 2) marker s 0 = Some (occurrences s) /\
  occurrences_from s 0 (occurrences s).
Proof.
  unfold occurrences.
  destruct (replace_matches (length s + 2) marker s 0) as [ms|] eqn:E.
  - split; [reflexivity|]. simpl. eapply replace_matches_occurrences; eauto.
  - exfalso. eapply replace_matches_total; eauto.
Qed.

Lemma occurrences_group1 (s : str) (i : nat) (ms : list MatchResult) :
  occurrences_from s i ms -> Forall (fun m => group1 m = Some (captured m)) ms.
Proof.
  induction 1 as [|i m ms Hi Hno Hat Hb Hm Hocc IH]; constructor; auto.
  apply match_at_inv in Hat. destruct Hat as [pre [rest [_ [_ [_ Hg]]]]].
  specialize (Hg marker_has_grp). unfold captured.
  destruct (group1 m); [reflexivity | congruence].
Qed.

(** The occurrences of a text are determined by the text. *)
Lemma occurrences_from_unique (s : str) (i : nat) (ms ms' : list MatchResult) :
  occurrences_from s i ms -> occurrences_from s i ms' -> ms = ms'.
Proof.
  intros H; revert ms'.
  induction H as [i Hnone|i m ms Hi Hno Hat Hb Hm Hocc IH]; intros ms' H'.
  - destruct H' as [|i m' ms' Hi' Hno' Hat' Hb' Hm' Hocc']; [reflexivity|].
    rewrite Hnone in Hat' by lia. discriminate.
  - destruct H' as [i Hnone'|i m' ms' Hi' Hno' Hat' Hb' Hm' Hocc'].
    + rewrite Hnone' in Hat by lia. discriminate.
    + assert (Hidx : index m = index m').
      { destruct (Nat.lt_trichotomy (index m) (index m')) as [Hlt|[Heq|Hgt]];
          [|assumption|].
        - rewrite Hno' in Hat by lia. discriminate.
        - rewrite Hno in Hat' by lia. discriminate. }
      rewrite <- Hidx in Hat'. rewrite Hat in Hat'. inversion Hat' as [[He Hg]].
      assert (m = m').
      { destruct m, m'; simpl in *; subst. reflexivity. }
      subst m'. f_equal. apply IH. assumption.
Qed.

(** ** Putting the result of [replace] together *)



Lemma assemble_weave (s : str) (i : nat) (ms : list MatchResult) :
  occurrences_from s i ms ->
  forall p repls, p <= i -> length repls = length ms ->
                  assemble s p (combine ms repls) = weave (gaps s p ms) repls.
Proof.
  induction 1 as [i _|i m ms Hi Hno Hat Hb Hm Hocc IH]; intros p repls Hp Hlen.
  - destruct repls; [reflexivity | discriminate].
  - destruct repls as [|x repls]; [discriminate|]. simpl.
    rewrite Nat.min_l by lia.
    destruct (Nat.leb_spec p (index m)); [|lia].
    assert (Hl : length (matched m) = endIndex m - index m).
    { rewrite Hm. unfold substring. rewrite length_firstn, length_skipn. lia. }
    rewrite Hl. replace (index m + (endIndex m - index m)) with (endIndex m) by lia.
    rewrite IH; auto.
Qed.


(** ** Worlds *)

Lemma add_log_nil (w : World) : add_log [] w = w.
Proof. destruct w; unfold add_log; simpl. rewrite app_nil_r. reflexivity. Qed.

Lemma add_log_add_log (a b : list Event) (w : World) :
  add_log b (add_log a w) = add_log (a ++ b) w.
Proof. unfold add_log; simpl. rewrite app_assoc. reflexivity. Qed.

Lemma new_events_add_log (evs : list Event) (w : World) :
  new_events w (add_log evs w) = evs.
Proof. unfold new_events; simpl. apply skipn_app_length. Qed.

Lemma new_events_app (w w' : World) (evs : list Event) :
  log w' = log w ++ evs -> new_events w w' = evs.
Proof. intros H. unfold new_events. rewrite H. apply skipn_app_length. Qed.

Lemma renders_map (ctxs : list DnnAscxRenderContext) : renders (map EvRender ctxs) = ctxs.
Proof. induction ctxs; simpl; congruence. Qed.

Lemma emit_run (e : Event) (w : World) : emit e w = (inr tt, add_log [e] w).
Proof. reflexivity. Qed.

Lemma set_lastIndex_run (n : nat) (w : World) :
  set_lastIndex n w = (inr tt, with_lastIndex n w).
Proof. reflexivity. Qed.

Lemma call_render_run (opts : DnnAscxPluginOptions) (ctx : DnnAscxRenderContext) (w : World) :
  call_render opts ctx w = (inr (render opts ctx), add_log [EvRender ctx] w).
Proof. reflexivity. Qed.

Lemma marker_exec_run (s : str) (w : World) :
  marker_exec s w =
  (inr (exec marker s (lastIndex w)),
   with_lastIndex (lastIndex_after (exec marker s (lastIndex w))) w).
Proof. reflexivity. Qed.

Lemma marker_test_run (s : str) (w : World) :
  marker_test s w =
  (inr (match exec marker s (lastIndex w) with Some _ => true | None => false end),
   with_lastIndex (lastIndex_after (exec marker s (lastIndex w))) w).
Proof. reflexivity. Qed.

Lemma with_lastIndex_twice (a b : nat) (w : World) :
  with_lastIndex b (with_lastIndex a w) = with_lastIndex b w.
Proof. reflexivity. Qed.

Lemma lastIndex_with (n : nat) (w : World) : lastIndex (with_lastIndex n w) = n.
Proof. reflexivity. Qed.

(** ** The dev rewrite *)

Section DevRewrite.
Variable cwd : str.
Variable opts : DnnAscxPluginOptions.
Variables ascxAbs devOrigin : str.

Let cb := fun (injectedClient : bool) (m : MatchResult) =>
  match group1 m with
  | None => throw TypeError
  | Some entryFromMarker =>
      let entry := replace_first (Seq Bol (Chr slash)) entryFromMarker [] in
      let jsUrl := devOrigin ++ js "/" ++ entry in
      let entryAbs := path.resolve cwd entryFromMarker in
      html <- call_render opts
                (mkCtx dev ascxAbs entryFromMarker entryAbs jsUrl []
                       (if injectedClient then None
                        else Some (devOrigin ++ js "/@vite/client"))
                       None) ;;
      ret (html, true)
  end%m.

Lemma cb_run (inj : bool) (m : MatchResult) (w : World) :
  group1 m = Some (captured m) ->
  cb inj m w =
  (inr (render opts (dev_context cwd ascxAbs devOrigin (negb inj) m), true),
   add_log [EvRender (dev_context cwd ascxAbs devOrigin (negb inj) m)] w).
Proof.
  intros Hm. unfold cb. rewrite Hm. cbv zeta. unfold bind.
  rewrite call_render_run. unfold ret, dev_context. destruct inj; reflexivity.
Qed.

Lemma run_replacer_dev_rest (ms : list MatchResult) :
  Forall (fun m => group1 m = Some (captured m)) ms ->
  forall w,
    run_replacer cb true ms w =
    (inr (combine ms (map (render opts) (map (dev_context cwd ascxAbs devOrigin false) ms))),
     add_log (map EvRender (map (dev_context cwd ascxAbs devOrigin false) ms)) w).
Proof.
  induction 1 as [|m ms Hm Hms IH]; intros w; cbn [run_replacer map combine].
  - unfold ret. rewrite add_log_nil. reflexivity.
  - unfold bind. rewrite cb_run by assumption. cbn [fst snd negb].
    rewrite IH. unfold ret. rewrite add_log_add_log. reflexivity.
Qed.

Lemma run_replacer_dev (ms : list MatchResult) :
  Forall (fun m => group1 m = Some (captured m)) ms ->
  forall w,
    run_replacer cb false ms w =
    (inr (combine ms (map (render opts) (dev_contexts cwd ascxAbs devOrigin ms))),
     add_log (map EvRender (dev_contexts cwd ascxAbs devOrigin ms)) w).
Proof.
  intros H w. destruct H as [|m ms Hm Hms]; cbn [run_replacer dev_contexts map combine].
  - unfold ret. rewrite add_log_nil. reflexivity.
  - unfold bind. rewrite cb_run by assumption. cbn [fst snd negb].
    rewrite run_replacer_dev_rest by assumption.
    unfold ret. rewrite add_log_add_log. reflexivity.
Qed.

(** What [rewriteAscxForDev] returns and does, in terms of the
    occurrences of the marker in the text. *)
Lemma rewriteAscxForDev_run (original : str) (w : World) :
  rewriteAscxForDev cwd opts original ascxAbs devOrigin w =
  (inr (weave (gaps original 0 (occurrences original))
              (map (render opts) (dev_contexts cwd ascxAbs devOrigin (occurrences original)))),
   add_log (map EvRender (dev_contexts cwd ascxAbs devOrigin (occurrences original)))
           (with_lastIndex 0 w)).
Proof.
  destruct (occurrences_spec original) as [Hocc Hfrom].
  pose proof (occurrences_group1 Hfrom) as Hg.
  unfold rewriteAscxForDev.
  unfold bind at 1. rewrite set_lastIndex_run.
  unfold bind at 1. rewrite marker_test_run, lastIndex_with, with_lastIndex_twice.
  destruct (exec marker original 0) as [m|] eqn:E; cbn [negb lastIndex_after].
  - unfold bind at 1. rewrite set_lastIndex_run, with_lastIndex_twice.
    unfold replace_marker. unfold bind at 1.
    rewrite set_lastIndex_run, with_lastIndex_twice.
    rewrite Hocc. unfold bind at 1.
    fold cb.
    rewrite run_replacer_dev by assumption. unfold ret.
    rewrite (assemble_weave Hfrom); auto.
    unfold dev_contexts. destruct (occurrences original); simpl; rewrite ?length_map; reflexivity.
  - assert (Hnil : occurrences original = []).
    { replace (length original + 2) with (S (length original + 1)) in Hocc by lia.
      simpl in Hocc. rewrite E in Hocc. congruence. }
    rewrite Hnil. cbn [dev_contexts map gaps weave]. unfold ret.
    rewrite add_log_nil. reflexivity.
Qed.
End DevRewrite.

(** ** Mirroring *)

Lemma writeMirrored_run (cwd : str) (opts : DnnAscxPluginOptions)
      (outDir absFilePath contents : str) (w : World) :
  writeMirrored cwd opts outDir absFilePath contents w =
  (inr tt,
   with_file (outPath cwd opts outDir absFilePath) contents
             (add_log [EvMkdir (path.dirname (outPath cwd opts outDir absFilePath))] w)).
Proof. reflexivity. Qed.

Lemma readFileSync_run (p c : str) (w : World) :
  files w p = Some c -> readFileSync p w = (inr c, w).
Proof. intros H. unfold readFileSync. rewrite H. reflexivity. Qed.

Lemma log_with_file (p c : str) (w : World) : log (with_file p c w) = log w ++ [EvWrite p c].
Proof. reflexivity. Qed.

Lemma log_add_log (evs : list Event) (w : World) : log (add_log evs w) = log w ++ evs.
Proof. reflexivity. Qed.

Lemma log_with_lastIndex (n : nat) (w : World) : log (with_lastIndex n w) = log w.
Proof. reflexivity. Qed.

Lemma writes_app (a b : list Event) : writes (a ++ b) = writes a ++ writes b.
Proof. unfold writes. apply flat_map_app. Qed.

Lemma renders_app (a b : list Event) : renders (a ++ b) = renders a ++ renders b.
Proof. unfold renders. apply flat_map_app. Qed.

Lemma writes_map_render (ctxs : list DnnAscxRenderContext) : writes (map EvRender ctxs) = [].
Proof. induction ctxs; simpl; auto. Qed.

(** ** The build rewrite *)

Section BuildRewrite.
Variable cwd : str.
Variable opts : DnnAscxPluginOptions.
Variable resolved : ResolvedConfig.
Variable bundle : OutputBundle.
Variable fAbs : str.

Lemma build_replacer_run (m : MatchResult) (w : World) :
  group1 m = Some (captured m) ->
  build_replacer cwd opts resolved bundle fAbs tt m w =
  (inr (build_replacement cwd opts resolved bundle fAbs m, tt),
   add_log (map EvRender (build_contexts cwd opts resolved bundle fAbs [m])) w).
Proof.
  intros Hm. unfold build_replacer, build_replacement, build_contexts, build_context.
  rewrite Hm. cbn [flat_map].
  destruct (getChunkBySourceEntry cwd bundle (path.resolve cwd (captured m))) as [c|].
  - unfold bind. rewrite call_render_run. reflexivity.
  - unfold ret. cbn [map app]. rewrite add_log_nil. reflexivity.
Qed.

Lemma run_replacer_build (ms : list MatchResult) :
  Forall (fun m => group1 m = Some (captured m)) ms ->
  forall w,
    run_replacer (build_replacer cwd opts resolved bundle fAbs) tt ms w =
    (inr (combine ms (map (build_replacement cwd opts resolved bundle fAbs) ms)),
     add_log (map EvRender (build_contexts cwd opts resolved bundle fAbs ms)) w).
Proof.
  induction 1 as [|m ms Hm Hms IH]; intros w; cbn [run_replacer map combine].
  - unfold ret. cbn. rewrite add_log_nil. reflexivity.
  - unfold bind. rewrite build_replacer_run by assumption. cbn [fst snd].
    rewrite IH. unfold ret. rewrite add_log_add_log, <- map_app.
    unfold build_contexts. cbn [flat_map]. rewrite app_nil_r. reflexivity.
Qed.

(** What the replacement pass of [generateBundle] returns and does. *)
Lemma build_rewrite_run (original : str) (w : World) :
  build_rewrite cwd opts resolved bundle fAbs original w =
  (inr (weave (gaps original 0 (occurrences original))
              (map (build_replacement cwd opts resolved bundle fAbs) (occurrences original))),
   add_log (map EvRender (build_contexts cwd opts resolved bundle fAbs (occurrences original)))
           (with_lastIndex 0 w)).
Proof.
  destruct (occurrences_spec original) as [Hocc Hfrom].
  pose proof (occurrences_group1 Hfrom) as Hg.
  unfold build_rewrite, replace_marker. unfold bind at 1.
  rewrite set_lastIndex_run, Hocc. unfold bind.
  rewrite run_replacer_build by assumption. unfold ret.
  rewrite (assemble_weave Hfrom); auto. rewrite length_map. reflexivity.
Qed.

(** One file of [generateBundle]. *)
Lemma bundle_file_run (outDir original : str) (w : World) :
  files w fAbs = Some original ->
  bundle_file cwd opts resolved bundle outDir fAbs w =
  (inr tt,
   with_file (outPath cwd opts outDir fAbs)
     (weave (gaps original 0 (occurrences original))
            (map (build_replacement cwd opts resolved bundle fAbs) (occurrences original)))
     (add_log
        (map EvRender (build_contexts cwd opts resolved bundle fAbs (occurrences original))
           ++ [EvMkdir (path.dirname (outPath cwd opts outDir fAbs))])
        (with_lastIndex 0 w))).
Proof.
  intros Hread. unfold bundle_file.
  unfold bind at 1. rewrite (readFileSync_run fAbs w Hread).
  unfold bind at 1. rewrite set_lastIndex_run.
  unfold bind at 1. rewrite marker_test_run, lastIndex_with, with_lastIndex_twice.
  unfold bind at 1. rewrite set_lastIndex_run, with_lastIndex_twice.
  destruct (exec marker original 0) as [m|] eqn:E; cbn [negb].
  - unfold bind. rewrite build_rewrite_run, with_lastIndex_twice.
    rewrite writeMirrored_run, add_log_add_log. reflexivity.
  - destruct (occurrences_spec original) as [Hocc _].
    assert (Hnil : occurrences original = []).
    { replace (length original + 2) with (S (length original + 1)) in Hocc by lia.
      simpl in Hocc. rewrite E in Hocc. congruence. }
    rewrite Hnil. cbn [gaps weave map build_contexts flat_map app skipn].
    rewrite writeMirrored_run. reflexivity.
Qed.

End BuildRewrite.

Section BuildAll.
Variable cwd : str.
Variable opts : DnnAscxPluginOptions.
Variable resolved : ResolvedConfig.
Variable bundle : OutputBundle.

Lemma for_each_bundle_file (outDir : str) (l : list str) :
  forall w,
    (forall f, In f l -> files w f <> None) ->
    exists w',
      for_each l (bundle_file cwd opts resolved bundle outDir) w = (inr tt, w') /\
      (exists evs, log w' = log w ++ evs /\
                   map fst (writes evs) = map (outPath cwd opts outDir) l) /\
      (forall q, files w q <> None -> files w' q <> None).
Proof.
  induction l as [|f l IH]; intros w Hall; cbn [for_each].
  - exists w. split; [reflexivity|]. split; [|auto].
    exists []. rewrite app_nil_r. auto.
  - destruct (files w f) as [original|] eqn:Hf;
      [|exfalso; apply (Hall f); [left; reflexivity | assumption]].
    unfold bind. rewrite (@bundle_file_run cwd opts resolved bundle f outDir original w Hf).
    match goal with |- context [for_each l _ ?w1] => set (w1' := w1) end.
    assert (Hkeep : forall q, files w q <> None -> files w1' q <> None).
    { intros q Hq. unfold w1'. cbn [with_file files].
      destruct (str_eqb q (outPath cwd opts outDir f)); [discriminate | exact Hq]. }
    destruct (IH w1') as [w' [Hrun [[evs [Hlog Hw]] Hfiles]]].
    { intros g Hg. apply Hkeep. apply Hall. right; assumption. }
    exists w'. split; [assumption|]. split.
    + unfold w1' in Hlog. rewrite log_with_file, log_add_log, log_with_lastIndex in Hlog.
      eexists. split.
      * rewrite Hlog. rewrite <- !app_assoc. reflexivity.
      * rewrite !writes_app, writes_map_render. cbn [writes flat_map app map fst].
        rewrite Hw. reflexivity.
    + intros q Hq. apply Hfiles, Hkeep, Hq.
Qed.
End BuildAll.

(** ** Marker rewriting: the properties of the specification *)

Lemma no_match_occurrences (s : str) :
  (forall j, j <= length s -> match_at marker j (skipn j s) = None) ->
  occurrences s = [].
Proof.
  intros H. destruct (occurrences_spec s) as [_ Hfrom].
  eapply occurrences_from_unique; [eassumption|].
  constructor. intros j Hj. apply H. lia.
Qed.

(** C2: on a text in which the marker pattern matches nowhere,
    [rewriteAscxForDev] returns its input, whatever the template path and
    the dev origin are; the renderer is not called and nothing else
    changes than [marker.lastIndex], left at 0. *)
Theorem rewriteAscxForDev_identity
        (cwd : str) (opts : DnnAscxPluginOptions) (original ascxAbs devOrigin : str)
        (w : World) :
  (forall j, j <= length original -> match_at marker j (skipn j original) = None) ->
  rewriteAscxForDev cwd opts original ascxAbs devOrigin w
  = (inr original, with_lastIndex 0 w).
Proof.
  intros H. rewrite rewriteAscxForDev_run, (no_match_occurrences original H).
  cbn [gaps weave dev_contexts map skipn]. rewrite add_log_nil. reflexivity.
Qed.

Lemma rewriteAscxForDev_identity_witness :
  rewriteAscxForDev Sample.cwd Sample.opts Sample.plain (js "/proj/plain.ascx")
                    (js "http://localhost:5173") Sample.world
  = (inr Sample.plain, with_lastIndex 0 Sample.world).
Proof.
  apply rewriteAscxForDev_identity.
  intros j Hj.
  do 13 (destruct j as [|j]; [reflexivity|]).
  simpl in Hj. lia.
Defined.

(** C3: in one call of [rewriteAscxForDev] the renderer receives one Render
    Context per occurrence, in text order; the first carries
    [devOrigin + "/@vite/client"] as [devClientUrl] and every later one
    carries none. *)
Theorem dev_client_url_first_only
        (cwd : str) (opts : DnnAscxPluginOptions) (original ascxAbs devOrigin : str)
        (w : World) :
  let ctxs :=
    renders (new_events w (snd (rewriteAscxForDev cwd opts original ascxAbs devOrigin w))) in
  map entryFromMarker ctxs = map captured (occurrences original) /\
  match ctxs with
  | [] => occurrences original = []
  | first :: rest =>
      devClientUrl first = Some (devOrigin ++ js "/@vite/client") /\
      Forall (fun ctx => devClientUrl ctx = None) rest
  end.
Proof.
  cbv zeta. rewrite rewriteAscxForDev_run. cbn [snd].
  rewrite (@new_events_app w _ (map EvRender (dev_contexts cwd ascxAbs devOrigin (occurrences original))))
    by reflexivity.
  rewrite renders_map.
  destruct (occurrences original) as [|m ms]; cbn [dev_contexts map].
  - split; reflexivity.
  - split.
    + cbn [entryFromMarker dev_context]. f_equal.
      rewrite map_map. reflexivity.
    + split; [reflexivity|]. apply Forall_forall. intros ctx Hin.
      apply in_map_iff in Hin. destruct Hin as [m' [<- _]]. reflexivity.
Qed.

Example dev_scenario :
  fst (rewriteAscxForDev Sample.cwd Sample.opts Sample.home (js "/proj/home.ascx")
                         (js "http://localhost:5173") Sample.world)
  = inr (js "<div>"
           ++ script_tag (js "http://localhost:5173/@vite/client") ++ newline
           ++ script_tag (js "http://localhost:5173/src/home.js")
           ++ js "</div>").
Proof. vm_compute. reflexivity. Qed.

Example dev_two_markers :
  map devClientUrl
      (renders (new_events Sample.world
                  (snd (rewriteAscxForDev Sample.cwd Sample.opts Sample.two
                          (js "/proj/two.ascx") (js "http://h") Sample.world))))
  = [Some (js "http://h/@vite/client"); None].
Proof. vm_compute. reflexivity. Qed.





(** C4: in the build rewrite an occurrence whose module has no entry chunk
    is replaced by the diagnostic comment and the renderer is not called
    for it; [generateBundle] raises no error on that account: when every
    tracked file can be read it ends normally, having written one file for
    each tracked file, with the other occurrences rewritten as usual. *)
Theorem generateBundle_missing_entry
        (cwd : str) (opts : DnnAscxPluginOptions) (resolved : ResolvedConfig)
        (bundle : OutputBundle) (w : World) :
  command resolved = cmd_build ->
  (forall f, In f (allAscxFiles w) -> files w f <> None) ->
  let outDir := path.resolve cwd (or_else (Opts.outAscxDir opts) (build_outDir resolved)) in
  (exists w',
      generateBundle cwd opts resolved bundle w = (inr tt, w') /\
      map fst (writes (new_events w w')) = map (outPath cwd opts outDir) (allAscxFiles w)) /\
  (forall fAbs original w1,
      files w1 fAbs = Some original ->
      exists w2,
        bundle_file cwd opts resolved bundle outDir fAbs w1 = (inr tt, w2) /\
        writes (new_events w1 w2)
        = [(outPath cwd opts outDir fAbs,
            weave (gaps original 0 (occurrences original))
                  (map (build_replacement cwd opts resolved bundle fAbs)
                       (occurrences original)))] /\
        renders (new_events w1 w2)
        = build_contexts cwd opts resolved bundle fAbs (occurrences original)) /\
  (forall fAbs m,
      getChunkBySourceEntry cwd bundle (path.resolve cwd (captured m)) = None ->
      build_replacement cwd opts resolved bundle fAbs m
      = js "<!-- vite:missing-entry " ++ captured m ++ js " -->" /\
      build_contexts cwd opts resolved bundle fAbs [m] = []).
Proof.
  intros Hcmd Hread outDir. split; [|split].
  - unfold generateBundle. rewrite Hcmd. fold outDir.
    unfold bind at 1. unfold mkdirSync. rewrite emit_run.
    unfold bind at 1. unfold get.
    change (allAscxFiles (add_log [EvMkdir outDir] w)) with (allAscxFiles w).
    destruct (@for_each_bundle_file cwd opts resolved bundle outDir (allAscxFiles w)
                (add_log [EvMkdir outDir] w) Hread)
      as [w' [Hrun [[evs [Hlog Hw]] _]]].
    exists w'. split; [assumption|].
    rewrite log_add_log, <- app_assoc in Hlog.
    rewrite (new_events_app w w' _ Hlog). rewrite writes_app. assumption.
  - intros fAbs original w1 Hf. eexists.
    split; [exact (@bundle_file_run cwd opts resolved bundle fAbs outDir original w1 Hf)|].
    match goal with |- context [new_events w1 ?x] =>
      assert (Hlog : log x = log w1 ++
                (map EvRender (build_contexts cwd opts resolved bundle fAbs (occurrences original))
                   ++ [EvMkdir (path.dirname (outPath cwd opts outDir fAbs))])
                ++ [EvWrite (outPath cwd opts outDir fAbs)
                      (weave (gaps original 0 (occurrences original))
                         (map (build_replacement cwd opts resolved bundle fAbs)
                            (occurrences original)))])
        by (rewrite log_with_file, log_add_log, log_with_lastIndex, <- app_assoc; reflexivity);
      rewrite (new_events_app w1 x _ Hlog)
    end.
    rewrite !writes_app, !renders_app, writes_map_render, renders_map.
    cbn [writes renders flat_map app]. rewrite !app_nil_r. split; reflexivity.
  - intros fAbs m Hnone.
    unfold build_replacement, build_contexts, build_context. cbn [flat_map].
    rewrite Hnone. split; reflexivity.
Qed.

Lemma generateBundle_missing_entry_witness :
  exists w',
    generateBundle Sample.cwd Sample.opts Sample.resolved [] Sample.world = (inr tt, w') /\
    map fst (writes (new_events Sample.world w'))
    = [js "/proj/dist/home.ascx"; js "/proj/dist/plain.ascx"].
Proof.
  refine (proj1 (@generateBundle_missing_entry Sample.cwd Sample.opts Sample.resolved []
                   Sample.world _ _)).
  - reflexivity.
  - intros f [<-|[<-|[]]]; vm_compute; discriminate.
Defined.

Example build_scenario :
  fst (build_rewrite Sample.cwd Sample.opts Sample.resolved
                     [asset_item (js "assets/logo.png"); chunk_item Sample.home_chunk]
                     (js "/proj/home.ascx") Sample.home Sample.world)
  = inr (js "<div>"
           ++ link_tag (js "/Portals/_default/Skins/MySkin/assets/home.abc123.css") ++ newline
           ++ script_tag (js "/Portals/_default/Skins/MySkin/assets/home.abc123.js")
           ++ js "</div>").
Proof. vm_compute. reflexivity. Qed.

Example build_scenario_missing :
  fst (build_rewrite Sample.cwd Sample.opts Sample.resolved []
                     (js "/proj/home.ascx") Sample.home Sample.world)
  = inr (js "<div><!-- vite:missing-entry src/home.js --></div>").
Proof. vm_compute. reflexivity. Qed.

(** ** The [config] hook *)

Lemma exec_marker_group1 (s : str) (i : nat) (m : MatchResult) :
  exec marker s i = Some m ->
  group1 m = Some (captured m) /\ (endIndex m =? index m) = false.
Proof.
  intros E. apply exec_some_at in E.
  destruct E as [_ [_ [_ [Hmin [_ [Hg _]]]]]].
  rewrite marker_min_len in Hmin. specialize (Hg marker_has_grp). split.
  - unfold captured. destruct (group1 m); [reflexivity | congruence].
  - apply Nat.eqb_neq. lia.
Qed.

(** The scanning loop of [config] visits the occurrences of the marker. *)
Lemma scan_entries_run (cwd fAbs content : str) (fuel : nat) :
  forall i ms,
    replace_matches fuel marker content i = Some ms ->
    forall inputs w,
      lastIndex w = i ->
      scan_entries cwd fuel content fAbs inputs w =
      (inr (fold_left (add_input cwd) ms inputs),
       with_refs (refs w ++ map (fun m => mkRef fAbs (path.resolve cwd (captured m))) ms)
                 (with_lastIndex 0 w)).
Proof.
  induction fuel as [|fuel IH]; intros i ms H inputs w Hi; [discriminate|].
  cbn [replace_matches] in H. cbn [scan_entries].
  unfold bind at 1. rewrite marker_exec_run, Hi.
  destruct (exec marker content i) as [m|] eqn:E.
  - destruct (exec_marker_group1 _ _ E) as [Hg Hne]. rewrite Hne in H.
    destruct (replace_matches fuel marker content (endIndex m)) as [ms'|] eqn:E';
      [|discriminate].
    inversion H; subst ms; clear H.
    rewrite Hg. cbv zeta. unfold bind at 1. unfold get at 1.
    unfold bind at 1. unfold set_refs at 1.
    erewrite IH; [|eassumption|reflexivity].
    cbn [fold_left map lastIndex_after]. unfold with_refs, with_lastIndex. cbn.
    rewrite <- app_assoc. reflexivity.
  - inversion H; subst ms. unfold ret. cbn [fold_left map lastIndex_after].
    rewrite app_nil_r. reflexivity.
Qed.

Lemma scan_files_no_marker (cwd : str) (l : list str) :
  forall inputs w,
    (forall f, In f l -> exists c, files w f = Some c /\ occurrences c = []) ->
    exists w',
      scan_files cwd l inputs w = (inr inputs, w') /\
      log w' = log w /\ files w' = files w /\ refs w' = refs w /\
      allAscxFiles w' = allAscxFiles w.
Proof.
  induction l as [|f l IH]; intros inputs w Hall; cbn [scan_files].
  - exists w. unfold ret. auto.
  - destruct (Hall f (or_introl eq_refl)) as [c [Hc Hocc]].
    unfold bind at 1. rewrite (readFileSync_run f w Hc).
    unfold bind at 1. rewrite set_lastIndex_run.
    unfold bind at 1.
    destruct (occurrences_spec c) as [Hms _]. rewrite Hocc in Hms.
    rewrite (@scan_entries_run cwd f c (length c + 2) 0 [] Hms) by reflexivity.
    cbn [fold_left map].
    match goal with |- context [scan_files cwd l inputs ?w1] =>
      destruct (IH inputs w1) as [w' [Hrun [Hlog [Hfiles [Hrefs Hall']]]]] end.
    { intros g Hg. apply Hall. right. assumption. }
    exists w'. split; [assumption|]. cbn in *. rewrite app_nil_r in Hrefs. auto.
Qed.

(** C5: in build mode, when no tracked file contains an occurrence of the
    marker, [config] throws if [requireAtLeastOneEntry] is set, before
    anything is written, and otherwise ends normally without Rollup
    inputs. *)
Theorem config_zero_entries
        (cwd : str) (opts : DnnAscxPluginOptions)
        (fg : list str -> list str -> (str -> option str) -> list str)
        (outDir : option str) (w : World) :
  (forall f,
      In f (map norm (fg (Opts.ascxGlobs opts) (config_ignore opts outDir) (files w))) ->
      exists c, files w f = Some c /\
                forall j, j <= length c -> match_at marker j (skipn j c) = None) ->
  (Opts.requireAtLeastOneEntry opts = Some true ->
   exists w', config cwd opts fg outDir cmd_build w = (inl NoEntryMarkers, w') /\
              log w' = log w) /\
  (Opts.requireAtLeastOneEntry opts <> Some true ->
   exists w', config cwd opts fg outDir cmd_build w = (inr no_change, w') /\
              log w' = log w).
Proof.
  intros Hnone.
  set (found := map norm (fg (Opts.ascxGlobs opts) (config_ignore opts outDir) (files w))) in *.
  assert (Hrun : exists w',
             config cwd opts fg outDir cmd_build w =
             (if or_else (Opts.requireAtLeastOneEntry opts) false
              then inl NoEntryMarkers else inr no_change, w') /\ log w' = log w).
  { unfold config. cbv zeta.
    unfold bind at 1. unfold set_dirs at 1.
    unfold bind at 1. unfold get at 1. cbn [files with_dirs].
    unfold bind at 1. unfold set_allAscxFiles at 1.
    unfold bind at 1. unfold set_refs at 1.
    unfold bind at 1. unfold get at 1. cbn [allAscxFiles with_refs with_allAscxFiles].
    fold found. unfold bind.
    match goal with |- context [scan_files cwd found [] ?w1] =>
      destruct (@scan_files_no_marker cwd found [] w1) as [w' [Hs [Hlog _]]] end.
    { intros f Hf. destruct (Hnone f Hf) as [c [Hc Hno]].
      exists c. split; [exact Hc | apply no_match_occurrences; assumption]. }
    rewrite Hs. cbn [length Nat.eqb].
    rewrite andb_true_r.
    destruct (or_else (Opts.requireAtLeastOneEntry opts) false);
      eexists; (split; [reflexivity | exact Hlog]). }
  destruct Hrun as [w' [Hrun Hlog]]. split; intros Hreq.
  - rewrite Hreq in Hrun. exists w'. auto.
  - exists w'. split; [|assumption]. rewrite Hrun.
    destruct (Opts.requireAtLeastOneEntry opts) as [[|]|]; simpl; congruence.
Qed.

Lemma config_zero_entries_witness :
  exists w',
    config Sample.cwd Sample.strict Sample.fg_plain None cmd_build Sample.world
    = (inl NoEntryMarkers, w') /\ log w' = log Sample.world.
Proof.
  refine (proj1 (@config_zero_entries Sample.cwd Sample.strict Sample.fg_plain None
                   Sample.world _) eq_refl).
  intros f [<-|[]]. exists Sample.plain. split; [reflexivity|].
  intros j Hj. do 13 (destruct j as [|j]; [reflexivity|]).
  simpl in Hj. lia.
Defined.

Example config_entry_found :
  fst (config Sample.cwd Sample.strict Sample.fg_all None cmd_build Sample.world)
  = inr (rollup_input [(js "src_home_js", js "/proj/src/home.js")]).
Proof. vm_compute. reflexivity. Qed.

(** ** Resolution of the captured reference *)



Example entry_not_relative_to_template :
  map entryAbs
      (renders (new_events Sample.world
                  (snd (rewriteAscxForDev Sample.cwd Sample.opts Sample.home
                          (js "/proj/skins/a/home.ascx") (js "http://h") Sample.world))))
  = [js "/proj/src/home.js"].
Proof. vm_compute. reflexivity. Qed.

(** ** Public URLs *)

Lemma scan_bol_none (r : regex) (suf : str) :
  forall i, 0 < i -> scan (Seq Bol r) i suf = None.
Proof.
  induction suf as [|x t IH]; intros i Hi; cbn [scan].
  - unfold match_at. cbn [rmatch]. destruct (Nat.eqb_spec i 0); [lia | reflexivity].
  - unfold match_at. cbn [rmatch]. destruct (Nat.eqb_spec i 0); [lia|].
    apply IH. lia.
Qed.

(** [p.replace(/^\//, "")]. *)
Lemma replace_leading_slash (p : str) :
  replace_first (Seq Bol (Chr slash)) p [] = chop_leading p.
Proof.
  unfold replace_first, exec. cbn [Nat.ltb Nat.leb skipn].
  destruct p as [|c t]; [reflexivity|].
  cbn [scan]. unfold match_at. cbn [rmatch Nat.eqb chop_leading].
  destruct (Ascii.eqb c slash).
  - reflexivity.
  - rewrite scan_bol_none by lia. reflexivity.
Qed.

Lemma scan_opt_eol (suf : str) :
  forall i, exists m,
    scan (Seq (Opt (is_char slash)) Eol) i suf = Some m /\
    index m = i + length (chop_trailing suf) /\
    endIndex m = i + length suf.
Proof.
  induction suf as [|x t IH]; intros i.
  - eexists. split; [reflexivity|]. cbn. lia.
  - cbn [scan]. unfold match_at. cbn [rmatch]. unfold is_char at 1.
    destruct t as [|y t'].
    + cbn [chop_trailing]. destruct (Ascii.eqb x slash).
      * eexists. split; [reflexivity|]. cbn. lia.
      * eexists. split; [reflexivity|]. cbn. lia.
    + assert (Hnone :
          (if Ascii.eqb x slash
           then match (match y :: t' with [] => Some (S i, @None str) | _ :: _ => None end) with
                | Some a => Some a
                | None => None
                end
           else None) = @None (nat * option str)) by (destruct (Ascii.eqb x slash); reflexivity).
      cbn [rmatch] in *. rewrite Hnone.
      destruct (IH (S i)) as [m [Hm [Hi He]]].
      exists m. split; [exact Hm|].
      change (chop_trailing (x :: y :: t')) with (x :: chop_trailing (y :: t')).
      cbn [length] in *. lia.
Qed.

Lemma chop_trailing_prefix (s : str) :
  firstn (length (chop_trailing s)) s = chop_trailing s.
Proof.
  induction s as [|c t IH]; [reflexivity|].
  destruct t as [|d t'].
  - cbn [chop_trailing]. destruct (Ascii.eqb c slash); reflexivity.
  - change (chop_trailing (c :: d :: t')) with (c :: chop_trailing (d :: t')).
    cbn [length firstn]. rewrite IH. reflexivity.
Qed.

(** [base.replace(/\/?$/, "/")]. *)
Lemma replace_trailing_slash (s repl : str) :
  replace_first (Seq (Opt (is_char slash)) Eol) s repl = chop_trailing s ++ repl.
Proof.
  unfold replace_first, exec. cbn [Nat.ltb Nat.leb skipn].
  destruct (scan_opt_eol s 0) as [m [Hm [Hi He]]]. rewrite Hm.
  cbn [Nat.add] in *. rewrite Hi, He, chop_trailing_prefix.
  rewrite skipn_all. rewrite app_nil_r. reflexivity.
Qed.

Lemma chop_trailing_snoc (l : str) (c : ascii) :
  chop_trailing (l ++ [c]) = if Ascii.eqb c slash then l else l ++ [c].
Proof.
  induction l as [|x l IH]; [reflexivity|].
  cbn [app]. destruct (l ++ [c]) as [|y t] eqn:E.
  - destruct l; discriminate.
  - change (chop_trailing (x :: y :: t)) with (x :: chop_trailing (y :: t)).
    rewrite IH. destruct (Ascii.eqb c slash); reflexivity.
Qed.

Lemma startsWith_nil (s : str) : startsWith s [] = true.
Proof. destruct s; reflexivity. Qed.

Lemma chop_trailing_strip (b : str) :
  endsWith b (js "//") = false -> chop_trailing b = strip_trailing b.
Proof.
  unfold endsWith, strip_trailing. intros H.
  destruct (rev b) as [|c t] eqn:E.
  - apply (f_equal (@rev ascii)) in E. rewrite rev_involutive in E. subst. reflexivity.
  - apply (f_equal (@rev ascii)) in E. rewrite rev_involutive in E. subst b.
    cbn [rev]. rewrite chop_trailing_snoc. cbn [path.dropwhile]. unfold is_char.
    cbn [startsWith rev app js list_ascii_of_string] in H.
    fold slash in H.
    destruct (Ascii.eqb c slash); [|reflexivity].
    destruct t as [|d t']; [reflexivity|].
    cbn [startsWith] in H. rewrite startsWith_nil in H.
    cbn [path.dropwhile]. unfold is_char. destruct (Ascii.eqb d slash); [discriminate|].
    reflexivity.
Qed.

Lemma chop_leading_strip (p : str) :
  startsWith p (js "//") = false -> chop_leading p = strip_leading p.
Proof.
  unfold strip_leading. intros H. destruct p as [|c t]; [reflexivity|].
  cbn [chop_leading path.dropwhile]. unfold is_char.
  cbn [startsWith js list_ascii_of_string] in H. fold slash in H.
  destruct (Ascii.eqb c slash); [|reflexivity].
  destruct t as [|d t']; [reflexivity|].
  cbn [startsWith] in H. rewrite startsWith_nil in H.
  cbn [path.dropwhile]. unfold is_char. destruct (Ascii.eqb d slash); [discriminate|].
  reflexivity.
Qed.

(** C6, as stated, fails: a base that ends in two separators keeps one of
    them in front of the separator that joins it to the artifact name. *)
Lemma toPublicUrl_two_separators :
  toPublicUrl Sample.doubled Sample.resolved (js "assets/a.js") = js "/Skins//assets/a.js" /\
  ~ one_separator_between (js "/Skins//") (js "assets/a.js")
      (toPublicUrl Sample.doubled Sample.resolved (js "assets/a.js")).
Proof.
  split; [vm_compute; reflexivity|].
  unfold one_separator_between. vm_compute. discriminate.
Qed.

(** C6, amended: the public URL is the base without one trailing separator
    (when it has one), a separator, and the artifact name without one
    leading separator (when it has one).  So exactly one separator stands
    between base and artifact path whenever the base does not end in two
    separators and the artifact name does not begin with two. *)
Theorem toPublicUrl_one_separator
        (opts : DnnAscxPluginOptions) (resolved : ResolvedConfig) (p : str) :
  let b := or_else (Opts.publicBase opts) (or_else (base resolved) (js "/")) in
  toPublicUrl opts resolved p = chop_trailing b ++ [slash] ++ chop_leading p /\
  (endsWith b (js "//") = false -> startsWith p (js "//") = false ->
   one_separator_between b p (toPublicUrl opts resolved p)).
Proof.
  cbv zeta.
  assert (H : toPublicUrl opts resolved p
              = chop_trailing (or_else (Opts.publicBase opts) (or_else (base resolved) (js "/")))
                  ++ [slash] ++ chop_leading p).
  { unfold toPublicUrl. cbv zeta.
    rewrite replace_trailing_slash, replace_leading_slash, <- app_assoc. reflexivity. }
  split; [exact H|].
  intros Hb Hp. unfold one_separator_between.
  rewrite H, (chop_trailing_strip _ Hb), (chop_leading_strip _ Hp). reflexivity.
Qed.

Lemma toPublicUrl_one_separator_witness :
  one_separator_between (js "/Portals/_default/Skins/MySkin/") (js "/assets/home.abc123.js")
    (toPublicUrl Sample.opts Sample.resolved (js "/assets/home.abc123.js")).
Proof.
  apply (proj2 (toPublicUrl_one_separator Sample.opts Sample.resolved
                  (js "/assets/home.abc123.js"))); reflexivity.
Defined.

(** ** Quiet steps *)

Lemma quiet_rel_refl (w : World) : quiet_rel w w.
Proof. split; [reflexivity|]. exists []. rewrite app_nil_r. auto. Qed.

Lemma quiet_rel_trans (w1 w2 w3 : World) :
  quiet_rel w1 w2 -> quiet_rel w2 w3 -> quiet_rel w1 w3.
Proof.
  intros [Ha [e1 [Hl1 Hn1]]] [Hb [e2 [Hl2 Hn2]]]. split; [congruence|].
  exists (e1 ++ e2). split.
  - rewrite Hl2, Hl1, app_assoc. reflexivity.
  - intros Hin. apply in_app_or in Hin. tauto.
Qed.

Lemma quiet_rel_add_log (evs : list Event) (w : World) :
  ~ In EvReload evs -> quiet_rel w (add_log evs w).
Proof. intros H. split; [reflexivity|]. exists evs. auto. Qed.

Lemma quiet_rel_with_lastIndex (n : nat) (w : World) : quiet_rel w (with_lastIndex n w).
Proof. split; [reflexivity|]. exists []. cbn. rewrite app_nil_r. auto. Qed.

Lemma quiet_rel_with_refs (l : list EntryRef) (w : World) : quiet_rel w (with_refs l w).
Proof. split; [reflexivity|]. exists []. cbn. rewrite app_nil_r. auto. Qed.

Lemma quiet_rel_with_file (p c : str) (w : World) : quiet_rel w (with_file p c w).
Proof.
  split; [reflexivity|]. exists [EvWrite p c]. split; [reflexivity|].
  intros [H|[]]. discriminate.
Qed.

Lemma quiet_ret (A : Type) (a : A) : quiet (ret a).
Proof. intros w. apply quiet_rel_refl. Qed.

Lemma quiet_throw (A : Type) (e : Exn) : quiet (@throw A e).
Proof. intros w. apply quiet_rel_refl. Qed.

Lemma quiet_get (A : Type) (f : World -> A) : quiet (get f).
Proof. intros w. apply quiet_rel_refl. Qed.

Lemma quiet_bind (A B : Type) (m : M A) (f : A -> M B) :
  quiet m -> (forall a, quiet (f a)) -> quiet (bind m f).
Proof.
  intros Hm Hf w. unfold bind. specialize (Hm w).
  destruct (m w) as [[e|a] w1]; cbn [snd] in *; [assumption|].
  eapply quiet_rel_trans; [eassumption | apply Hf].
Qed.

Lemma quiet_set_lastIndex (n : nat) : quiet (set_lastIndex n).
Proof. intros w. apply quiet_rel_with_lastIndex. Qed.

Lemma quiet_set_refs (l : list EntryRef) : quiet (set_refs l).
Proof. intros w. apply quiet_rel_with_refs. Qed.

Lemma quiet_readFileSync (p : str) : quiet (readFileSync p).
Proof. intros w. unfold readFileSync. destruct (files w p); apply quiet_rel_refl. Qed.

Lemma quiet_mkdirSync (p : str) : quiet (mkdirSync p).
Proof.
  intros w. apply quiet_rel_add_log. intros [H|[]]. discriminate.
Qed.

Lemma quiet_emit_watch (g : str) : quiet (emit (EvWatch g)).
Proof.
  intros w. apply quiet_rel_add_log. intros [H|[]]. discriminate.
Qed.

Lemma quiet_writeFileSync (p c : str) : quiet (writeFileSync p c).
Proof. intros w. apply quiet_rel_with_file. Qed.

Lemma quiet_marker_test (s : str) : quiet (marker_test s).
Proof. intros w. rewrite marker_test_run. apply quiet_rel_with_lastIndex. Qed.

Lemma quiet_marker_exec (s : str) : quiet (marker_exec s).
Proof. intros w. rewrite marker_exec_run. apply quiet_rel_with_lastIndex. Qed.

Lemma quiet_call_render (opts : DnnAscxPluginOptions) (ctx : DnnAscxRenderContext) :
  quiet (call_render opts ctx).
Proof.
  intros w. rewrite call_render_run. apply quiet_rel_add_log. intros [H|[]]. discriminate.
Qed.

Lemma quiet_for_each (A : Type) (body : A -> M unit) (l : list A) :
  (forall x, quiet (body x)) -> quiet (for_each l body).
Proof.
  intros Hb. induction l as [|x l IH]; cbn [for_each].
  - apply quiet_ret.
  - apply quiet_bind; [apply Hb | intros _; exact IH].
Qed.

Lemma quiet_run_replacer (S : Type) (cb : S -> MatchResult -> M (str * S))
      (ms : list MatchResult) :
  (forall st m, quiet (cb st m)) -> forall st, quiet (run_replacer cb st ms).
Proof.
  intros Hcb. induction ms as [|m ms IH]; intros st; cbn [run_replacer].
  - apply quiet_ret.
  - apply quiet_bind; [apply Hcb | intros r].
    apply quiet_bind; [apply IH | intros rest; apply quiet_ret].
Qed.

Create HintDb quiet.
#[local] Hint Resolve quiet_ret quiet_throw quiet_get quiet_set_lastIndex quiet_set_refs
  quiet_readFileSync quiet_mkdirSync quiet_emit_watch quiet_writeFileSync
  quiet_marker_test quiet_marker_exec quiet_call_render : quiet.

Ltac quiet_step :=
  match goal with
  | |- quiet (bind _ _) => apply quiet_bind; [|intros ?]
  | |- quiet (for_each _ _) => apply quiet_for_each; intros ?
  | |- quiet (run_replacer _ _ _) => apply quiet_run_replacer; intros ? ?
  | |- quiet (if ?c then _ else _) => destruct c
  | |- quiet (match ?x with _ => _ end) => destruct x
  | |- quiet _ => solve [auto with quiet]
  end.

Ltac quiet_tac := repeat quiet_step.

Lemma quiet_replace_marker (S : Type) (s : str) (cb : S -> MatchResult -> M (str * S))
      (init : S) :
  (forall st m, quiet (cb st m)) -> quiet (replace_marker s cb init).
Proof.
  intros Hcb. unfold replace_marker. quiet_tac.
Qed.

Lemma quiet_rewriteAscxForDev (cwd : str) (opts : DnnAscxPluginOptions)
      (original ascxAbs devOrigin : str) :
  quiet (rewriteAscxForDev cwd opts original ascxAbs devOrigin).
Proof.
  unfold rewriteAscxForDev. quiet_tac.
  apply quiet_replace_marker. intros st m. quiet_tac.
Qed.

Lemma quiet_writeMirrored (cwd : str) (opts : DnnAscxPluginOptions)
      (outDir absFilePath contents : str) :
  quiet (writeMirrored cwd opts outDir absFilePath contents).
Proof. unfold writeMirrored. quiet_tac. Qed.

#[local] Hint Resolve quiet_rewriteAscxForDev quiet_writeMirrored : quiet.

Lemma quiet_writeAllDevAscx (cwd : str) (opts : DnnAscxPluginOptions)
      (server : ViteDevServer) :
  quiet (writeAllDevAscx cwd opts server).
Proof. unfold writeAllDevAscx, dev_file. quiet_tac. Qed.

Lemma quiet_scan_entries (cwd : str) (fuel : nat) (content fAbs : str) :
  forall inputs, quiet (scan_entries cwd fuel content fAbs inputs).
Proof.
  induction fuel as [|fuel IH]; intros inputs; cbn [scan_entries]; quiet_tac.
Qed.

Lemma quiet_scan_files (cwd : str) (l : list str) :
  forall inputs, quiet (scan_files cwd l inputs).
Proof.
  induction l as [|f l IH]; intros inputs; cbn [scan_files]; quiet_tac.
  apply quiet_scan_entries.
Qed.

Lemma quiet_generateBundle (cwd : str) (opts : DnnAscxPluginOptions)
      (resolved : ResolvedConfig) (bundle : OutputBundle) :
  quiet (generateBundle cwd opts resolved bundle).
Proof.
  unfold generateBundle, bundle_file, build_rewrite. quiet_tac.
  apply quiet_replace_marker. intros st m. unfold build_replacer. quiet_tac.
Qed.

Lemma quiet_configureServer (cwd : str) (opts : DnnAscxPluginOptions)
      (server : ViteDevServer) :
  quiet (configureServer cwd opts server).
Proof.
  unfold configureServer. quiet_tac. apply quiet_writeAllDevAscx.
Qed.

(** ** Watch events: mirroring before reloading *)

Lemma ends_in_reload_reload : ends_in_reload reload.
Proof.
  intros w. exists [EvReload]. split; [reflexivity|]. right. exists []. auto.
Qed.

Lemma ends_in_reload_bind (A B : Type) (m : M A) (f : A -> M B) :
  quiet m -> (forall a, ends_in_reload (f a)) -> ends_in_reload (bind m f).
Proof.
  intros Hm Hf w. unfold bind. destruct (Hm w) as [_ [e1 [Hl1 Hn1]]].
  destruct (m w) as [[e|a] w1]; cbn [snd fst] in *.
  - exists e1. split; [assumption|]. left. split; [eauto | assumption].
  - destruct (Hf a w1) as [e2 [Hl2 Hcase]].
    exists (e1 ++ e2). split; [rewrite Hl2, Hl1, app_assoc; reflexivity|].
    destruct Hcase as [[Hex Hn2]|[pre [-> Hpre]]].
    + left. split; [assumption|]. intros Hin. apply in_app_or in Hin. tauto.
    + right. exists (e1 ++ pre). split; [apply app_assoc|].
      intros Hin. apply in_app_or in Hin. tauto.
Qed.

Lemma split_at_reload (pre post pre' : list Event) :
  pre ++ EvReload :: post = pre' ++ [EvReload] ->
  ~ In EvReload pre' -> post = [] /\ pre = pre'.
Proof.
  revert pre'. induction pre as [|e pre IH]; intros [|e' pre'] H Hn; cbn in *.
  - inversion H. auto.
  - inversion H; subst. exfalso. apply Hn. left. reflexivity.
  - inversion H; subst. destruct pre; discriminate.
  - inversion H; subst. destruct (IH pre') as [Hp He]; auto.
    subst. auto.
Qed.

Lemma ends_in_reload_last (m : M unit) : ends_in_reload m -> reload_comes_last m.
Proof.
  intros H w. destruct (H w) as [evs [Hl Hcase]]. exists evs. split; [assumption|].
  destruct Hcase as [[[e He] Hn]|[pre' [-> Hpre]]].
  - split.
    + intros pre post ->. exfalso. apply Hn. apply in_or_app. right. left. reflexivity.
    + intros Hok. rewrite He in Hok. discriminate.
  - split.
    + intros pre post Heq. symmetry in Heq.
      destruct (split_at_reload pre post pre' Heq Hpre) as [-> ->]. auto.
    + intros _ _. exists pre'. reflexivity.
Qed.

Lemma reload_comes_last_ret : reload_comes_last (ret tt).
Proof.
  intros w. exists []. cbn. rewrite app_nil_r. split; [reflexivity|]. split.
  - intros pre post H. destruct pre; discriminate.
  - intros _ H. congruence.
Qed.

Lemma reload_comes_last_get (A : Type) (g : World -> A) (f : A -> M unit) :
  (forall a, reload_comes_last (f a)) -> reload_comes_last (bind (get g) f).
Proof. intros H w. unfold bind, get. apply H. Qed.

Ltac reload_tac :=
  apply ends_in_reload_last;
  repeat (apply ends_in_reload_bind; [solve [quiet_tac] | intros ?]);
  apply ends_in_reload_reload.

Lemma quiet_set_allAscxFiles_then (l : list str) (k : M unit) :
  ends_in_reload k -> ends_in_reload (bind (set_allAscxFiles l) (fun _ => k)).
Proof.
  intros Hk w. unfold bind, set_allAscxFiles.
  match goal with |- context [k ?w1] => destruct (Hk w1) as [evs [Hl Hc]] end.
  exists evs. split; assumption.
Qed.

(** C8: for each watch event (change, add, unlink) the events that its
    handler adds to the log contain the reload signal at most once and
    only as their last element; so every mirrored write of the event
    precedes the reload signal, and when the handler wrote a mirror and
    ended normally the reload signal was sent after it. *)
Theorem reload_after_mirroring
        (cwd : str) (opts : DnnAscxPluginOptions) (resolved : ResolvedConfig)
        (fg_sync : list str -> list str -> (str -> option str) -> list str)
        (server : ViteDevServer) (file : str) :
  reload_comes_last (onChange cwd opts resolved server file) /\
  reload_comes_last (onAdd cwd opts fg_sync server file) /\
  reload_comes_last (onUnlink cwd opts fg_sync server file).
Proof.
  split; [|split].
  - unfold onChange. cbv zeta.
    destruct (startsWith _ _); [reload_tac|].
    destruct (endsWith _ _); [|apply reload_comes_last_ret].
    apply reload_comes_last_get. intros all.
    destruct (negb _); [apply reload_comes_last_ret | reload_tac].
  - unfold onAdd. destruct (endsWith _ _); [|apply reload_comes_last_ret].
    apply ends_in_reload_last.
    apply ends_in_reload_bind; [solve [quiet_tac] | intros ign].
    apply ends_in_reload_bind; [solve [quiet_tac] | intros found].
    apply quiet_set_allAscxFiles_then.
    apply ends_in_reload_bind; [apply quiet_writeAllDevAscx | intros _].
    apply ends_in_reload_reload.
  - unfold onUnlink. destruct (endsWith _ _); [|apply reload_comes_last_ret].
    apply ends_in_reload_last.
    apply ends_in_reload_bind; [solve [quiet_tac] | intros ign].
    apply ends_in_reload_bind; [solve [quiet_tac] | intros found].
    apply quiet_set_allAscxFiles_then.
    apply ends_in_reload_bind; [apply quiet_writeAllDevAscx | intros _].
    apply ends_in_reload_reload.
Qed.

Example change_events :
  new_events Sample.world
    (snd (onChange Sample.cwd Sample.opts Sample.resolved Sample.server
                   (js "/proj/Plain.ascx") Sample.world))
  = [EvMkdir (js "/proj/.dnn"); EvWrite (js "/proj/.dnn/plain.ascx") Sample.plain; EvReload].
Proof. vm_compute. reflexivity. Qed.

(** ** Normalisation of paths for comparison *)

Lemma replace_matches_same_exec (r : regex) (s : str) (fuel i j : nat) :
  exec r s i = exec r s j -> replace_matches fuel r s i = replace_matches fuel r s j.
Proof. intros H. destruct fuel; cbn [replace_matches]; [reflexivity|]. rewrite H. reflexivity. Qed.

(** [p.replace(/\\/g, "/")], and any other replacement of one character
    everywhere. *)
Lemma replace_chr_from (c d : ascii) (suf : str) :
  forall pre fuel,
    length suf + 2 <= fuel ->
    exists ms,
      replace_matches fuel (Chr c) (pre ++ suf) (length pre) = Some ms /\
      forall p, p <= length pre ->
                assemble (pre ++ suf) p (map (fun m => (m, [d])) ms)
                = skipn p pre ++ map (fun x => if Ascii.eqb x c then d else x) suf.
Proof.
  induction suf as [|x t IH]; intros pre fuel Hfuel.
  - destruct fuel as [|fuel]; [cbn in Hfuel; lia|]. cbn [replace_matches].
    rewrite exec_at. cbn [scan]. unfold match_at. cbn [rmatch].
    exists []. split; [reflexivity|]. intros p Hp. cbn [map assemble].
    rewrite app_nil_r. rewrite app_nil_r. reflexivity.
  - assert (Hs : pre ++ x :: t = (pre ++ [x]) ++ t) by (rewrite <- app_assoc; reflexivity).
    assert (Hl : length (pre ++ [x]) = S (length pre)) by (rewrite length_app; cbn; lia).
    destruct (Ascii.eqb x c) eqn:Exc.
    + destruct fuel as [|fuel]; [cbn in Hfuel; lia|]. cbn [replace_matches].
      rewrite exec_at. cbn [scan]. unfold match_at. cbn [rmatch]. rewrite Exc.
      cbn [endIndex index].
      destruct (Nat.eqb_spec (S (length pre)) (length pre)) as [Hbad|_]; [lia|].
      destruct (IH (pre ++ [x]) fuel) as [ms [Hms Hasm]]; [cbn in Hfuel; lia|].
      rewrite Hs, <- Hl, Hms. eexists. split; [reflexivity|].
      intros p Hp. cbn [map assemble index matched option_map].
      rewrite Hl. rewrite <- Hs.
      assert (Hlen : length pre < length (pre ++ x :: t))
        by (rewrite length_app; cbn; lia).
      rewrite Nat.min_l by lia.
      destruct (Nat.leb_spec p (length pre)) as [_|Hbad]; [|lia].
      replace (S (length pre) - length pre) with 1 by lia. cbn [firstn length].
      replace (length pre + 1) with (length (pre ++ [x])) by lia.
      rewrite Hs at 2. rewrite Hasm by lia.
      rewrite skipn_all. cbn [app map]. rewrite Exc.
      rewrite substring_prefix by lia. reflexivity.
    + assert (Hex : exec (Chr c) (pre ++ x :: t) (length pre)
                    = exec (Chr c) (pre ++ x :: t) (S (length pre))).
      { rewrite exec_at. rewrite Hs, <- Hl, exec_at.
        cbn [scan]. unfold match_at at 1. cbn [rmatch]. rewrite Exc. rewrite Hl. reflexivity. }
      rewrite (replace_matches_same_exec _ _ fuel _ _ Hex).
      destruct (IH (pre ++ [x]) fuel) as [ms [Hms Hasm]]; [cbn in Hfuel; lia|].
      rewrite Hs, <- Hl. exists ms. split; [exact Hms|].
      intros p Hp. rewrite Hasm by lia.
      rewrite skipn_prefix_app by lia. cbn [map]. rewrite Exc, <- app_assoc. reflexivity.
Qed.

Lemma replace_all_backslash (p : str) :
  replace_all (Chr backslash) p [slash] = map bs_to_slash p.
Proof.
  unfold replace_all.
  destruct (replace_chr_from backslash slash p [] (fuel := length p + 2)) as [ms [Hms Hasm]];
    [lia|].
  cbn [app length] in *. rewrite Hms. rewrite Hasm by lia. reflexivity.
Qed.

Lemma dropwhile_snoc (f : ascii -> bool) (l : str) (x : ascii) :
  path.dropwhile f (l ++ [x])
  = if forallb f l then (if f x then [] else [x]) else path.dropwhile f l ++ [x].
Proof.
  induction l as [|a l IH]; cbn [app path.dropwhile forallb].
  - reflexivity.
  - destruct (f a); cbn [andb]; [exact IH | reflexivity].
Qed.

Lemma forallb_rev (f : ascii -> bool) (l : str) : forallb f (rev l) = forallb f l.
Proof.
  induction l as [|a l IH]; [reflexivity|].
  cbn [rev forallb]. rewrite forallb_app, IH. cbn. rewrite andb_true_r. apply andb_comm.
Qed.

Lemma strip_trailing_cons (x : ascii) (t : str) :
  strip_trailing (x :: t)
  = if forallb (is_char slash) (x :: t) then [] else x :: strip_trailing t.
Proof.
  unfold strip_trailing. cbn [rev]. rewrite dropwhile_snoc, forallb_rev.
  cbn [forallb]. destruct (forallb (is_char slash) t) eqn:Et; cbn [andb].
  - rewrite andb_true_r. destruct (is_char slash x); [reflexivity|].
    assert (Hd : path.dropwhile (is_char slash) (rev t) = []).
    { rewrite <- forallb_rev in Et. induction (rev t) as [|a l IH]; [reflexivity|].
      cbn [forallb] in Et. apply andb_prop in Et. destruct Et as [Ha El].
      cbn [path.dropwhile]. rewrite Ha. auto. }
    rewrite Hd. reflexivity.
  - rewrite andb_false_r. rewrite rev_app_distr. reflexivity.
Qed.

Lemma strip_trailing_prefix (s : str) :
  firstn (length (strip_trailing s)) s = strip_trailing s.
Proof.
  induction s as [|x t IH]; [reflexivity|].
  rewrite strip_trailing_cons. destruct (forallb (is_char slash) (x :: t)); [reflexivity|].
  cbn [length firstn]. rewrite IH. reflexivity.
Qed.

Lemma star_eol_all (f : ascii -> bool) (suf : str) :
  forall i cap,
    forallb f suf = true ->
    star f i suf cap (fun j rest c => rmatch Eol j rest c (fun j' _ c' => Some (j', c')))
    = Some (i + length suf, cap).
Proof.
  induction suf as [|x t IH]; intros i cap H; cbn [star].
  - cbn. rewrite Nat.add_0_r. reflexivity.
  - cbn [forallb] in H. apply andb_prop in H. destruct H as [Hx Ht].
    rewrite Hx, IH by assumption. cbn [length]. f_equal. f_equal. lia.
Qed.

Lemma star_eol_not_all (f : ascii -> bool) (suf : str) :
  forall i cap,
    forallb f suf = false ->
    star f i suf cap (fun j rest c => rmatch Eol j rest c (fun j' _ c' => Some (j', c')))
    = None.
Proof.
  induction suf as [|x t IH]; intros i cap H; cbn [star]; [discriminate|].
  cbn [forallb] in H. destruct (f x); cbn [andb] in H.
  - rewrite IH by assumption. reflexivity.
  - reflexivity.
Qed.

Lemma match_plus_eol (f : ascii -> bool) (i : nat) (suf : str) :
  match_at (Seq (Plus f) Eol) i suf
  = match suf with
    | [] => None
    | _ :: _ => if forallb f suf then Some (i + length suf, None) else None
    end.
Proof.
  unfold match_at. cbn [rmatch]. destruct suf as [|x t]; [reflexivity|].
  cbn [forallb]. destruct (f x); cbn [andb]; [|reflexivity].
  destruct (forallb f t) eqn:Et.
  - rewrite star_eol_all by assumption. cbn [length]. f_equal. f_equal. lia.
  - apply star_eol_not_all. assumption.
Qed.

Lemma scan_plus_eol (suf : str) :
  forall i,
    match scan (Seq (Plus (is_char slash)) Eol) i suf with
    | Some m => index m = i + length (strip_trailing suf) /\ endIndex m = i + length suf
    | None => strip_trailing suf = suf
    end.
Proof.
  induction suf as [|x t IH]; intros i.
  - cbn [scan]. rewrite match_plus_eol. reflexivity.
  - cbn [scan]. rewrite match_plus_eol, strip_trailing_cons.
    destruct (forallb (is_char slash) (x :: t)).
    + cbn. lia.
    + specialize (IH (S i)).
      destruct (scan (Seq (Plus (is_char slash)) Eol) (S i) t) as [m|].
      * cbn [length]. lia.
      * rewrite IH. reflexivity.
Qed.

(** [s.replace(/\/+$/, "")]. *)
Lemma replace_trailing_slashes (s : str) :
  replace_first (Seq (Plus (is_char slash)) Eol) s [] = strip_trailing s.
Proof.
  unfold replace_first, exec. cbn [Nat.ltb Nat.leb skipn].
  pose proof (scan_plus_eol s 0) as H.
  destruct (scan (Seq (Plus (is_char slash)) Eol) 0 s) as [m|].
  - destruct H as [Hi He]. cbn [Nat.add] in *.
    rewrite Hi, He, strip_trailing_prefix, skipn_all. apply app_nil_r.
  - symmetry. assumption.
Qed.

Lemma norm_eq (p : str) :
  norm p = map lower_char (strip_trailing (map bs_to_slash p)).
Proof.
  unfold norm, toLowerCase. rewrite replace_all_backslash, replace_trailing_slashes.
  reflexivity.
Qed.

(** Facts about single characters, by inspection of the 256 of them. *)
Lemma lower_char_idem (c : ascii) : lower_char (lower_char c) = lower_char c.
Proof. destruct c as [[] [] [] [] [] [] [] []]; reflexivity. Qed.

Lemma lower_char_slash (c : ascii) : is_char slash (lower_char c) = is_char slash c.
Proof. destruct c as [[] [] [] [] [] [] [] []]; reflexivity. Qed.

Lemma lower_char_backslash (c : ascii) :
  is_char backslash (lower_char c) = is_char backslash c.
Proof. destruct c as [[] [] [] [] [] [] [] []]; reflexivity. Qed.

Lemma lower_char_dot (c : ascii) : Ascii.eqb (lower_char c) "."%char = Ascii.eqb c "."%char.
Proof. destruct c as [[] [] [] [] [] [] [] []]; reflexivity. Qed.

Lemma bs_to_slash_no_backslash (c : ascii) : is_char backslash (bs_to_slash c) = false.
Proof. destruct c as [[] [] [] [] [] [] [] []]; reflexivity. Qed.

Lemma bs_to_slash_fixed (c : ascii) : is_char backslash c = false -> bs_to_slash c = c.
Proof. unfold bs_to_slash, is_char. intros ->. reflexivity. Qed.

Lemma strip_trailing_map (f : ascii -> ascii) (s : str) :
  (forall c, is_char slash (f c) = is_char slash c) ->
  strip_trailing (map f s) = map f (strip_trailing s).
Proof.
  intros Hf. induction s as [|x t IH]; [reflexivity|].
  cbn [map]. rewrite !strip_trailing_cons.
  assert (Hall : forallb (is_char slash) (f x :: map f t) = forallb (is_char slash) (x :: t)).
  { cbn [forallb]. rewrite Hf. f_equal. clear IH.
    induction t as [|y t IHt]; [reflexivity|]. cbn [map forallb]. rewrite Hf, IHt. reflexivity. }
  rewrite Hall. destruct (forallb (is_char slash) (x :: t)); [reflexivity|].
  cbn [map]. rewrite IH. reflexivity.
Qed.

Lemma endsWith_slash (s : str) :
  endsWith s (js "/") = match rev s with c :: _ => is_char slash c | [] => false end.
Proof.
  unfold endsWith. cbn [js list_ascii_of_string rev app]. destruct (rev s) as [|c l]; [reflexivity|].
  cbn [startsWith]. rewrite startsWith_nil. unfold is_char. fold slash.
  destruct (Ascii.eqb c slash); reflexivity.
Qed.

Lemma dropwhile_head (f : ascii -> bool) (l : str) :
  match path.dropwhile f l with c :: _ => f c = false | [] => True end.
Proof.
  induction l as [|a l IH]; cbn [path.dropwhile]; [exact I|].
  destruct (f a) eqn:E; [exact IH | exact E].
Qed.

Lemma strip_trailing_no_slash (s : str) : endsWith (strip_trailing s) (js "/") = false.
Proof.
  rewrite endsWith_slash. unfold strip_trailing. rewrite rev_involutive.
  pose proof (dropwhile_head (is_char slash) (rev s)) as H.
  destruct (path.dropwhile (is_char slash) (rev s)); [reflexivity | exact H].
Qed.

Lemma strip_trailing_fixed (s : str) :
  endsWith s (js "/") = false -> strip_trailing s = s.
Proof.
  rewrite endsWith_slash. unfold strip_trailing. intros H.
  destruct (rev s) as [|c l] eqn:E.
  - apply (f_equal (@rev ascii)) in E. rewrite rev_involutive in E. subst. reflexivity.
  - cbn [path.dropwhile]. rewrite H. rewrite <- E. apply rev_involutive.
Qed.

Lemma existsb_firstn (f : ascii -> bool) (n : nat) (s : str) :
  existsb f s = false -> existsb f (firstn n s) = false.
Proof.
  revert n. induction s as [|x t IH]; intros [|n] H; cbn in *; auto.
  apply orb_false_elim in H. destruct H as [-> Ht]. cbn. auto.
Qed.

Lemma norm_normal_form (p : str) : normal_form (norm p).
Proof.
  rewrite norm_eq. split; [|split].
  - assert (H : existsb (is_char backslash) (strip_trailing (map bs_to_slash p)) = false).
    { rewrite <- strip_trailing_prefix. apply existsb_firstn.
      induction p as [|x t IH]; [reflexivity|]. cbn [map existsb].
      rewrite bs_to_slash_no_backslash. exact IH. }
    induction (strip_trailing (map bs_to_slash p)) as [|x t IH]; [reflexivity|].
    cbn [map existsb] in *. apply orb_false_elim in H. destruct H as [Hx Ht].
    rewrite lower_char_backslash, Hx. cbn. auto.
  - rewrite <- strip_trailing_map by apply lower_char_slash.
    apply strip_trailing_no_slash.
  - unfold toLowerCase. rewrite map_map. apply map_ext. apply lower_char_idem.
Qed.

Lemma normal_form_fixed (t : str) : normal_form t -> norm t = t.
Proof.
  intros [Hb [Hs Hl]]. rewrite norm_eq.
  assert (Hmap : map bs_to_slash t = t).
  { clear Hs Hl. induction t as [|x t IH]; [reflexivity|].
    cbn [existsb map] in *. apply orb_false_elim in Hb. destruct Hb as [Hx Ht].
    rewrite (bs_to_slash_fixed _ Hx), IH by assumption. reflexivity. }
  rewrite Hmap, strip_trailing_fixed by assumption. exact Hl.
Qed.

Lemma norm_idempotent (p : str) : norm (norm p) = norm p.
Proof. apply normal_form_fixed, norm_normal_form. Qed.

Lemma norm_fixed_iff (t : str) : norm t = t <-> normal_form t.
Proof.
  split.
  - intros H. rewrite <- H. apply norm_normal_form.
  - apply normal_form_fixed.
Qed.

(** ** Paths *)

Unset Implicit Arguments.

Lemma split_nonempty (s : str) : path.split s <> [].
Proof.
  induction s as [|c t IH]; cbn [path.split]; [discriminate|].
  destruct (Ascii.eqb c slash); [discriminate|].
  destruct (path.split t); [contradiction | discriminate].
Qed.

Lemma split_cons_other (c : ascii) (t : str) :
  Ascii.eqb c slash = false ->
  exists seg rest, path.split t = seg :: rest /\ path.split (c :: t) = (c :: seg) :: rest.
Proof.
  intros Hc. cbn [path.split]. rewrite Hc.
  destruct (path.split t) as [|seg rest] eqn:E; [destruct (split_nonempty _ E)|].
  eauto.
Qed.

Lemma split_app_slash (a b : str) :
  path.split (a ++ [slash] ++ b) = path.split a ++ path.split b.
Proof.
  induction a as [|c a IH].
  - reflexivity.
  - cbn [app] in *. destruct (Ascii.eqb c slash) eqn:Hc.
    + cbn [path.split]. rewrite Hc, IH. reflexivity.
    + destruct (split_cons_other c a Hc) as [seg [rest [Ha Hca]]].
      rewrite Hca. cbn [path.split]. rewrite Hc, IH, Ha. reflexivity.
Qed.

Lemma split_no_slash (s : str) :
  Forall (fun seg => existsb (is_char slash) seg = false) (path.split s).
Proof.
  induction s as [|c t IH]; cbn [path.split].
  - repeat constructor.
  - destruct (Ascii.eqb c slash) eqn:Hc.
    + constructor; [reflexivity | exact IH].
    + destruct (path.split t) as [|seg rest]; [repeat constructor; cbn; unfold is_char; rewrite Hc; reflexivity|].
      inversion IH; subst. constructor; [|assumption].
      cbn [existsb]. unfold is_char at 1. rewrite Hc. assumption.
Qed.

Lemma split_single (s : str) :
  existsb (is_char slash) s = false -> path.split s = [s].
Proof.
  induction s as [|c t IH]; intros H; [reflexivity|].
  cbn [existsb] in H. apply orb_false_elim in H. destruct H as [Hc Ht].
  unfold is_char in Hc. cbn [path.split]. rewrite Hc, (IH Ht). reflexivity.
Qed.

Lemma split_join (segs : list str) :
  segs <> [] ->
  Forall (fun seg => existsb (is_char slash) seg = false) segs ->
  path.split (join [slash] segs) = segs.
Proof.
  induction segs as [|x rest IH]; intros Hne Hall; [contradiction|].
  inversion Hall as [|? ? Hx Hrest]; subst.
  destruct rest as [|y rest'].
  - cbn [join]. apply split_single. assumption.
  - change (join [slash] (x :: y :: rest')) with (x ++ [slash] ++ join [slash] (y :: rest')).
    rewrite split_app_slash, (split_single _ Hx), IH by (auto; discriminate). reflexivity.
Qed.

Lemma plain_seg_spec (seg : str) :
  plain_seg seg = true ->
  str_eqb seg [] = false /\ str_eqb seg path.dot = false /\
  str_eqb seg path.dotdot = false /\ existsb (is_char slash) seg = false.
Proof.
  unfold plain_seg. intros H.
  repeat (apply andb_prop in H; destruct H as [H ?]).
  repeat split; apply negb_true_iff; assumption.
Qed.





(** The shape of a normalised path: steps upwards first, when they are
    allowed at all, and then names. *)
Lemma fold_norm_step_shape (allow : bool) (segs : list str) :
  Forall (fun seg => existsb (is_char slash) seg = false) segs ->
  forall names n,
    forallb plain_seg names = true ->
    (allow = false -> n = 0) ->
    exists names' n',
      fold_left (path.norm_step allow) segs (names ++ repeat path.dotdot n)
      = names' ++ repeat path.dotdot n' /\
      forallb plain_seg names' = true /\ (allow = false -> n' = 0).
Proof.
  induction 1 as [|seg segs Hseg Hsegs IH]; intros names n Hnames Hn; cbn [fold_left].
  - eauto.
  - unfold path.norm_step at 2.
    destruct (str_eqb seg [] || str_eqb seg path.dot) eqn:E1; [apply IH; assumption|].
    destruct (str_eqb seg path.dotdot) eqn:E2.
    + destruct names as [|top below].
      * cbn [app]. destruct n as [|n].
        -- cbn [repeat]. destruct allow.
           ++ apply str_eqb_eq in E2. subst seg.
              apply (IH [] 1); auto. discriminate.
           ++ apply (IH [] 0); auto.
        -- cbn [repeat]. rewrite str_eqb_refl. destruct allow.
           ++ apply str_eqb_eq in E2. subst seg.
              apply (IH [] (S (S n))); auto. discriminate.
           ++ specialize (Hn eq_refl). discriminate.
      * cbn [app]. cbn [forallb] in Hnames. apply andb_prop in Hnames.
        destruct Hnames as [Htop Hbelow].
        destruct (plain_seg_spec _ Htop) as [_ [_ [Hdd _]]]. rewrite Hdd.
        apply IH; assumption.
    + apply (IH (seg :: names) n); [|assumption].
      cbn [forallb]. rewrite Hnames, andb_true_r. unfold plain_seg.
      apply orb_false_elim in E1. destruct E1 as [-> ->]. rewrite E2, Hseg. reflexivity.
Qed.

Lemma normalize_segs_shape (allow : bool) (p : str) :
  exists names n,
    path.normalize_segs allow p = repeat path.dotdot n ++ names /\
    forallb plain_seg names = true /\ (allow = false -> n = 0).
Proof.
  unfold path.normalize_segs.
  destruct (fold_norm_step_shape allow _ (split_no_slash p) [] 0) as [names [n [H [Hn Ha]]]];
    [reflexivity | reflexivity |].
  cbn [repeat app] in H. rewrite H. exists (rev names), n.
  rewrite rev_app_distr, rev_repeat. split; [reflexivity|]. split; [|assumption].
  rewrite forallb_forall in *. intros x Hx. apply Hn. apply in_rev. assumption.
Qed.









Lemma resolve_segs_plain (cwd p : str) :
  forallb plain_seg (path.resolve_segs cwd p) = true.
Proof.
  unfold path.resolve_segs.
  destruct (normalize_segs_shape false (if path.isAbsolute p then p else cwd ++ [slash] ++ p))
    as [names [n [H [Hnames Hn]]]].
  rewrite H, (Hn eq_refl). exact Hnames.
Qed.



Lemma join_cons_dotdot (rest : list str) :
  startsWith (join [slash] (path.dotdot :: rest)) (js "..") = true.
Proof. destruct rest; reflexivity. Qed.


Lemma last_filter_in (f : str -> bool) (l : list str) :
  last (filter f l) [] = [] \/ (In (last (filter f l) []) l /\ f (last (filter f l) []) = true).
Proof.
  destruct (filter f l) as [|x rest] eqn:E; [left; reflexivity|].
  right. assert (Hin : In (last (x :: rest) []) (filter f l)).
  { rewrite E. clear E. revert x. induction rest as [|y rest IH]; intros x.
    - left. reflexivity.
    - right. apply (IH y). }
  apply filter_In in Hin. exact Hin.
Qed.






(** The condition on the base name in the next theorem cannot be dropped.
    A path that ends in the segment [..] names a directory, never a file;
    for such a path the fallback is [..] itself. *)
Lemma outPath_dotdot_base :
  outPath Sample.cwd Sample.opts (js "/out") (js "/a/..") = js "/" /\
  ~ inside (js "/out") (outPath Sample.cwd Sample.opts (js "/out") (js "/a/..")).
Proof.
  split; [vm_compute; reflexivity|].
  intros [_ [rest [_ H]]]. vm_compute in H. discriminate.
Qed.

(** A resolved path does not end in the segment [..]. *)
Lemma basename_resolve (cwd p : str) : path.basename (path.resolve cwd p) <> path.dotdot.
Proof.
  unfold path.resolve, path.basename.
  pose proof (resolve_segs_plain cwd p) as Hplain.
  destruct (path.resolve_segs cwd p) as [|seg segs] eqn:E; [vm_compute; discriminate|].
  assert (Hsplit : path.split (slash :: join [slash] (seg :: segs)) = [] :: seg :: segs).
  { cbn [path.split]. change (Ascii.eqb slash slash) with true. cbv iota.
    rewrite split_join; [reflexivity | discriminate |].
    apply Forall_forall. intros x Hx. rewrite forallb_forall in Hplain.
    apply (plain_seg_spec _ (Hplain x Hx)). }
  rewrite Hsplit.
  change (filter (fun s0 : str => negb (str_eqb s0 [])) ([] :: seg :: segs))
    with (filter (fun s0 : str => negb (str_eqb s0 [])) (seg :: segs)).
  destruct (last_filter_in (fun s0 => negb (str_eqb s0 [])) (seg :: segs)) as [Hnil|[Hin _]].
  - rewrite Hnil. vm_compute. discriminate.
  - rewrite forallb_forall in Hplain. specialize (Hplain _ Hin).
    unfold plain_seg in Hplain. intros Heq. rewrite Heq in Hplain.
    vm_compute in Hplain. discriminate.
Qed.

(** *** Out of the root *)

Lemma is_prefix_refl (a : list str) : is_prefix a a = true.
Proof. induction a as [|x a IH]; cbn [is_prefix]; [|rewrite str_eqb_refl]; auto. Qed.

Lemma strip_common_up (a : list str) :
  forall b, is_prefix a b = false -> exists x rest, fst (path.strip_common a b) = x :: rest.
Proof.
  induction a as [|x a IH]; intros b H; cbn [is_prefix] in H; [discriminate|].
  destruct b as [|y b]; cbn [path.strip_common]; [exists x, a; reflexivity|].
  destruct (str_eqb x y); cbn [andb] in H; [apply IH; assumption | exists x, a; reflexivity].
Qed.

(** A source path that is not below the root has a relative path that
    starts with a parent-directory traversal. *)
Lemma relative_out_of_root (cwd root p : str) :
  below cwd root p = false ->
  startsWith (path.relative cwd root p) (js "..") = true.
Proof.
  unfold below, path.relative. intros H.
  destruct (str_eqb_spec root p) as [->|_].
  - rewrite is_prefix_refl in H. discriminate.
  - destruct (strip_common_up _ _ H) as [x [rest Hup]].
    destruct (path.strip_common (path.resolve_segs cwd root) (path.resolve_segs cwd p))
      as [up down].
    cbn [fst] in Hup. subst up. cbn [map app]. apply join_cons_dotdot.
Qed.

(** *** Failing calls *)

Lemma dropwhile_length (f : ascii -> bool) (l : str) :
  length (path.dropwhile f l) <= length l.
Proof.
  induction l as [|a l IH]; cbn [path.dropwhile]; [lia|].
  destruct (f a); cbn [length]; lia.
Qed.

(** The directory above a path is the root, the working directory, or has
    a shorter name than the path. *)
Lemma dirname_length (p : str) :
  Disk.is_root (path.dirname p) = true \/ length (path.dirname p) < length p.
Proof.
  destruct p as [|c0 t]; [left; reflexivity|].
  unfold path.dirname. cbv zeta.
  pose proof (dropwhile_length (is_char slash) (rev t)) as H1.
  pose proof (dropwhile_head (is_char slash) (rev t)) as Hh1.
  rewrite length_rev in H1.
  destruct (path.dropwhile (is_char slash) (rev t)) as [|y r1] eqn:E1.
  - cbn [path.dropwhile]. destruct (Ascii.eqb c0 slash); left; reflexivity.
  - cbn [path.dropwhile]. rewrite Hh1. cbn [negb].
    pose proof (dropwhile_length (fun c => negb (is_char slash c)) r1) as H2.
    destruct (path.dropwhile (fun c => negb (is_char slash c)) r1) as [|x before] eqn:E2.
    + destruct (Ascii.eqb c0 slash); left; reflexivity.
    + right. cbn [length] in *.
      destruct (Ascii.eqb c0 slash && (S (length before) =? 1));
        [change (length (js "//")) with 2; lia|].
      cbn [length]. rewrite length_rev. lia.
Qed.


(** More fuel than the path has characters finds no further directory. *)
Lemma ancestors_fuel (n : nat) :
  forall p fuel1 fuel2,
    length p <= n -> length p < fuel1 -> length p < fuel2 ->
    Disk.ancestors fuel1 p = Disk.ancestors fuel2 p.
Proof.
  induction n as [|n IH]; intros p fuel1 fuel2 Hn H1 H2;
    (destruct fuel1 as [|f1]; [lia|]); (destruct fuel2 as [|f2]; [lia|]);
    cbn [Disk.ancestors]; (destruct (Disk.is_root p); [reflexivity|]); f_equal;
    (destruct (dirname_length p) as [Hroot|Hlt];
     [destruct f1, f2; cbn [Disk.ancestors]; rewrite ?Hroot; reflexivity|]).
  - lia.
  - apply IH; lia.
Qed.







(** On a disk where a mirrored template has made a directory of the output
    path, mirroring a file from outside the root throws; so does mirroring
    into an output root that is a file. *)
Example writeMirrored_in_the_way :
  Disk.writeMirrored Sample.cwd Sample.opts (js "/proj/.dnn") (js "/elsewhere/home.ascx")
    (js "x") (Disk.put (js "/proj/.dnn/home.ascx") Disk.Dir Disk.empty)
  = inl (Disk.EISDIR (js "/proj/.dnn/home.ascx")) /\
  Disk.writeMirrored Sample.cwd Sample.opts (js "/proj/.dnn") (js "/elsewhere/home.ascx")
    (js "x") (Disk.put (js "/proj/.dnn") (Disk.File []) Disk.empty)
  = inl (Disk.EEXIST (js "/proj/.dnn")).
Proof. split; vm_compute; reflexivity. Qed.



(** ** Lower case and path resolution *)

Section MapPath.
Variable f : ascii -> ascii.
Hypothesis f_slash : forall c, Ascii.eqb (f c) slash = Ascii.eqb c slash.
Hypothesis f_dot : forall c, Ascii.eqb (f c) "."%char = Ascii.eqb c "."%char.

Lemma split_map (s : str) : path.split (map f s) = map (map f) (path.split s).
Proof.
  induction s as [|c t IH]; [reflexivity|].
  cbn [map path.split]. rewrite f_slash, IH.
  destruct (Ascii.eqb c slash); [reflexivity|].
  destruct (path.split t); reflexivity.
Qed.

Lemma str_eqb_map_nil (s : str) : str_eqb (map f s) [] = str_eqb s [].
Proof. destruct s; reflexivity. Qed.

Lemma str_eqb_map_dot (s : str) : str_eqb (map f s) path.dot = str_eqb s path.dot.
Proof.
  destruct s as [|c [|d s]]; cbn; rewrite ?f_dot; reflexivity.
Qed.

Lemma str_eqb_map_dotdot (s : str) : str_eqb (map f s) path.dotdot = str_eqb s path.dotdot.
Proof.
  destruct s as [|c [|d [|e s]]]; cbn; rewrite ?f_dot; reflexivity.
Qed.

Lemma norm_step_map (allow : bool) (stack : list str) (seg : str) :
  path.norm_step allow (map (map f) stack) (map f seg)
  = map (map f) (path.norm_step allow stack seg).
Proof.
  unfold path.norm_step.
  rewrite str_eqb_map_nil, str_eqb_map_dot, str_eqb_map_dotdot.
  destruct (str_eqb seg [] || str_eqb seg path.dot); [reflexivity|].
  destruct (str_eqb seg path.dotdot); [|reflexivity].
  destruct stack as [|top below]; cbn [map].
  - destruct allow; reflexivity.
  - rewrite str_eqb_map_dotdot. destruct (str_eqb top path.dotdot); [|reflexivity].
    destruct allow; reflexivity.
Qed.

Lemma fold_norm_step_map (allow : bool) (segs : list str) :
  forall stack,
    fold_left (path.norm_step allow) (map (map f) segs) (map (map f) stack)
    = map (map f) (fold_left (path.norm_step allow) segs stack).
Proof.
  induction segs as [|seg segs IH]; intros stack; [reflexivity|].
  cbn [map fold_left]. rewrite norm_step_map. apply IH.
Qed.

Lemma normalize_segs_map (allow : bool) (p : str) :
  path.normalize_segs allow (map f p) = map (map f) (path.normalize_segs allow p).
Proof.
  unfold path.normalize_segs. rewrite split_map.
  change (@nil str) with (map (map f) []) at 1.
  rewrite fold_norm_step_map, map_rev. reflexivity.
Qed.

Lemma f_of_slash : f slash = slash.
Proof. apply Ascii.eqb_eq. rewrite f_slash. apply Ascii.eqb_refl. Qed.

Lemma join_map (l : list str) : map f (join [slash] l) = join [slash] (map (map f) l).
Proof.
  induction l as [|x l IH]; [reflexivity|].
  destruct l as [|y l]; [reflexivity|].
  change (join [slash] (x :: y :: l)) with (x ++ [slash] ++ join [slash] (y :: l)).
  rewrite !map_app, IH. cbn [map]. rewrite f_of_slash. reflexivity.
Qed.

Lemma isAbsolute_map (p : str) : path.isAbsolute (map f p) = path.isAbsolute p.
Proof. destruct p; [reflexivity|]. cbn. apply f_slash. Qed.

Lemma resolve_map (cwd p : str) :
  map f (path.resolve cwd p) = path.resolve (map f cwd) (map f p).
Proof.
  unfold path.resolve, path.resolve_segs. cbn [map].
  rewrite f_of_slash, join_map, isAbsolute_map, <- normalize_segs_map.
  destruct (path.isAbsolute p); [reflexivity|].
  rewrite !map_app. cbn [map]. rewrite f_of_slash. reflexivity.
Qed.
End MapPath.

Lemma lower_char_slash_eqb (c : ascii) : Ascii.eqb (lower_char c) slash = Ascii.eqb c slash.
Proof. apply lower_char_slash. Qed.

Lemma bs_lower_commute (c : ascii) : bs_to_slash (lower_char c) = lower_char (bs_to_slash c).
Proof. destruct c as [[] [] [] [] [] [] [] []]; reflexivity. Qed.

(** Lower-casing first does not change the normal form. *)
Lemma norm_lower (p : str) : norm (toLowerCase p) = norm p.
Proof.
  rewrite !norm_eq. unfold toLowerCase.
  rewrite map_map.
  rewrite (map_ext _ (fun c => lower_char (bs_to_slash c)) bs_lower_commute).
  rewrite <- (map_map bs_to_slash lower_char).
  rewrite (strip_trailing_map lower_char _ lower_char_slash), map_map.
  apply map_ext. apply lower_char_idem.
Qed.

(** The handler of ["change"] looks up the normal form of the path of the
    event. *)
Lemma absPath_lower (cwd file : str) :
  absPath cwd (toLowerCase file) = norm (absolute cwd file).
Proof.
  unfold absPath, absolute, toLowerCase.
  rewrite (isAbsolute_map lower_char lower_char_slash_eqb).
  destruct (path.isAbsolute file); [apply norm_lower|].
  rewrite <- (norm_lower (path.resolve cwd (map lower_char file))).
  rewrite <- (norm_lower (path.resolve cwd file)). unfold toLowerCase.
  rewrite !(resolve_map lower_char lower_char_slash_eqb lower_char_dot).
  rewrite map_map. f_equal. f_equal. apply map_ext. apply lower_char_idem.
Qed.

(** ** The set of tracked files *)

Lemma quiet_keeps (A : Type) (m : M A) : quiet m -> keeps m.
Proof. intros H w. apply (H w). Qed.

Lemma keeps_bind (A B : Type) (m : M A) (k : A -> M B) :
  keeps m -> (forall a, keeps (k a)) -> keeps (bind m k).
Proof.
  intros Hm Hk w. unfold bind. specialize (Hm w).
  destruct (m w) as [[e|a] w1]; cbn [snd] in *; [assumption|].
  rewrite Hk. assumption.
Qed.

Lemma keeps_reload : keeps reload.
Proof. intros w. reflexivity. Qed.

Lemma keeps_ret (A : Type) (a : A) : keeps (ret a).
Proof. intros w. reflexivity. Qed.

Lemma keeps_onChange (cwd : str) (opts : DnnAscxPluginOptions) (resolved : ResolvedConfig)
      (server : ViteDevServer) (file : str) :
  keeps (onChange cwd opts resolved server file).
Proof.
  unfold onChange. cbv zeta.
  destruct (startsWith _ _).
  - repeat (apply keeps_bind; [apply quiet_keeps; solve [quiet_tac] | intros ?]).
    apply keeps_reload.
  - destruct (endsWith _ _); [|apply keeps_ret].
    apply keeps_bind; [apply quiet_keeps; solve [quiet_tac] | intros all].
    destruct (negb _); [apply keeps_ret|].
    repeat (apply keeps_bind; [apply quiet_keeps; solve [quiet_tac] | intros ?]).
    apply keeps_reload.
Qed.

Lemma set_allAscxFiles_then (A : Type) (l : list str) (k : M A) (w : World) :
  keeps k -> allAscxFiles (snd (bind (set_allAscxFiles l) (fun _ => k) w)) = l.
Proof. intros Hk. unfold bind, set_allAscxFiles. rewrite Hk. reflexivity. Qed.

Lemma config_tracked (cwd : str) (opts : DnnAscxPluginOptions)
      (fg : list str -> list str -> (str -> option str) -> list str)
      (outDir : option str) (env_command : Command) (w : World) :
  allAscxFiles (snd (config cwd opts fg outDir env_command w))
  = map norm (fg (Opts.ascxGlobs opts) (config_ignore opts outDir) (files w)).
Proof.
  unfold config. cbv zeta. unfold bind at 1. unfold set_dirs at 1.
  unfold bind at 1. unfold get at 1. cbn [files].
  apply set_allAscxFiles_then.
  destruct env_command; [apply keeps_ret|].
  apply quiet_keeps. quiet_tac. apply quiet_scan_files.
Qed.

Lemma onAdd_tracked (cwd : str) (opts : DnnAscxPluginOptions)
      (fg_sync : list str -> list str -> (str -> option str) -> list str)
      (server : ViteDevServer) (file : str) (w : World) :
  endsWith (toLowerCase file) (js ".ascx") = true ->
  allAscxFiles (snd (onAdd cwd opts fg_sync server file w))
  = map norm (fg_sync (Opts.ascxGlobs opts) (ignore w) (files w)).
Proof.
  intros H. unfold onAdd. rewrite H. unfold bind at 1. unfold get at 1.
  unfold bind at 1. unfold get at 1.
  apply set_allAscxFiles_then.
  apply keeps_bind; [apply quiet_keeps, quiet_writeAllDevAscx | intros _; apply keeps_reload].
Qed.

Lemma onUnlink_tracked (cwd : str) (opts : DnnAscxPluginOptions)
      (fg_sync : list str -> list str -> (str -> option str) -> list str)
      (server : ViteDevServer) (file : str) (w : World) :
  endsWith (toLowerCase file) (js ".ascx") = true ->
  allAscxFiles (snd (onUnlink cwd opts fg_sync server file w))
  = map norm (fg_sync (Opts.ascxGlobs opts) (ignore w) (files w)).
Proof.
  intros H. unfold onUnlink. rewrite H. unfold bind at 1. unfold get at 1.
  unfold bind at 1. unfold get at 1.
  apply set_allAscxFiles_then.
  apply keeps_bind; [apply quiet_keeps, quiet_writeAllDevAscx | intros _; apply keeps_reload].
Qed.

Lemma map_norm_fixed (l : list str) : Forall (fun t => norm t = t) (map norm l).
Proof.
  apply Forall_forall. intros t Ht. apply in_map_iff in Ht.
  destruct Ht as [p [<- _]]. apply norm_idempotent.
Qed.

(** Every hook leaves the tracked files normalised. *)
Lemma run_hook_tracked (cwd : str) (opts : DnnAscxPluginOptions) (resolved : ResolvedConfig)
      (fg fg_sync : list str -> list str -> (str -> option str) -> list str)
      (h : Hook) (w : World) :
  Forall (fun t => norm t = t) (allAscxFiles w) ->
  Forall (fun t => norm t = t)
         (allAscxFiles (snd (run_hook cwd opts resolved fg fg_sync h w))).
Proof.
  intros Hinv. destruct h as [outDir cmd|server|server file|server file|server file|bundle];
    cbn [run_hook].
  - assert (Hk : allAscxFiles (snd ((config cwd opts fg outDir cmd ;; ret tt)%m w))
                 = allAscxFiles (snd (config cwd opts fg outDir cmd w))).
    { unfold bind. destruct (config cwd opts fg outDir cmd w) as [[e|a] w1]; reflexivity. }
    rewrite Hk, config_tracked. apply map_norm_fixed.
  - rewrite (quiet_keeps _ _ (quiet_configureServer cwd opts server)). assumption.
  - rewrite keeps_onChange. assumption.
  - destruct (endsWith (toLowerCase file) (js ".ascx")) eqn:E.
    + rewrite (onAdd_tracked _ _ _ _ _ _ E). apply map_norm_fixed.
    + unfold onAdd. rewrite E. assumption.
  - destruct (endsWith (toLowerCase file) (js ".ascx")) eqn:E.
    + rewrite (onUnlink_tracked _ _ _ _ _ _ E). apply map_norm_fixed.
    + unfold onUnlink. rewrite E. assumption.
  - rewrite (quiet_keeps _ _ (quiet_generateBundle cwd opts resolved bundle)). assumption.
Qed.

Lemma run_hooks_tracked (cwd : str) (opts : DnnAscxPluginOptions) (resolved : ResolvedConfig)
      (fg fg_sync : list str -> list str -> (str -> option str) -> list str)
      (hs : list Hook) :
  forall w,
    Forall (fun t => norm t = t) (allAscxFiles w) ->
    Forall (fun t => norm t = t)
           (allAscxFiles (run_hooks cwd opts resolved fg fg_sync hs w)).
Proof.
  induction hs as [|h hs IH]; intros w Hinv; cbn [run_hooks]; [assumption|].
  apply IH. apply run_hook_tracked. assumption.
Qed.

(** C10: [norm] returns fixed points of itself, and these are the paths
    with forward slashes only, no separator at the end and no upper-case
    letter.  The tracked set is the image under [norm] of what discovery
    found after [config], and again after the handlers of add and unlink
    for a template; so in every world that the hooks can reach each
    tracked path is a fixed point of [norm].  With that, the lookup of the
    change handler, which normalises the path of the event first, succeeds
    exactly when a tracked path has the normal form of that path. *)
Theorem tracked_files_normalised
        (cwd : str) (opts : DnnAscxPluginOptions) (resolved : ResolvedConfig)
        (fg fg_sync : list str -> list str -> (str -> option str) -> list str) :
  (forall p, norm (norm p) = norm p /\ normal_form (norm p)) /\
  (forall t, norm t = t <-> normal_form t) /\
  (forall outDir env_command w,
      allAscxFiles (snd (config cwd opts fg outDir env_command w))
      = map norm (fg (Opts.ascxGlobs opts) (config_ignore opts outDir) (files w))) /\
  (forall server file w,
      endsWith (toLowerCase file) (js ".ascx") = true ->
      allAscxFiles (snd (onAdd cwd opts fg_sync server file w))
      = map norm (fg_sync (Opts.ascxGlobs opts) (ignore w) (files w)) /\
      allAscxFiles (snd (onUnlink cwd opts fg_sync server file w))
      = map norm (fg_sync (Opts.ascxGlobs opts) (ignore w) (files w))) /\
  (forall hs disk,
      Forall (fun t => norm t = t)
             (allAscxFiles (run_hooks cwd opts resolved fg fg_sync hs (initial_world disk)))) /\
  (forall w file,
      Forall (fun t => norm t = t) (allAscxFiles w) ->
      (includes (allAscxFiles w) (absPath cwd (toLowerCase file)) = true <->
       exists t, In t (allAscxFiles w) /\ norm t = norm (absolute cwd file))).
Proof.
  split; [|split; [|split; [|split; [|split]]]].
  - intros p. split; [apply norm_idempotent | apply norm_normal_form].
  - apply norm_fixed_iff.
  - intros outDir env_command w. apply config_tracked.
  - intros server file w H. split; [apply onAdd_tracked | apply onUnlink_tracked]; assumption.
  - intros hs disk. apply run_hooks_tracked. constructor.
  - intros w file Hinv. rewrite absPath_lower, includes_In. split.
    + intros Hin. exists (norm (absolute cwd file)). split; [assumption|].
      apply norm_idempotent.
    + intros [t [Hin Ht]]. rewrite Forall_forall in Hinv.
      rewrite <- Ht, (Hinv t Hin). assumption.
Qed.

Lemma tracked_files_normalised_witness :
  includes (allAscxFiles Sample.world)
           (absPath Sample.cwd (toLowerCase (js "/proj/HOME.ascx/"))) = true.
Proof.
  apply (proj2 (proj2 (proj2 (proj2 (proj2
           (tracked_files_normalised Sample.cwd Sample.opts Sample.resolved
              Sample.fg_all Sample.fg_all))))) Sample.world (js "/proj/HOME.ascx/")).
  - repeat constructor.
  - exists (js "/proj/home.ascx"). split; [left; reflexivity | vm_compute; reflexivity].
Defined.

(** * Further properties of the plugin *)

(** ** [uniq] *)

Lemma filter_neq_In (x y : str) (l : list str) :
  In y (filter (fun z => negb (str_eqb z x)) l) <-> In y l /\ y <> x.
Proof.
  rewrite filter_In. split; intros [H1 H2]; (split; [assumption|]).
  - apply negb_true_iff, str_eqb_neq in H2. assumption.
  - apply negb_true_iff, str_eqb_neq. assumption.
Qed.


Lemma uniq_In (l : list str) (x : str) : In x (uniq l) <-> In x l.
Proof.
  revert x. induction l as [|y l IH]; intros x; [reflexivity|].
  cbn [uniq In]. rewrite filter_neq_In, IH.
  destruct (str_eqb_spec x y) as [->|Hne]; [tauto|].
  split; [tauto|]. intros [H|H]; [congruence | tauto].
Qed.

Lemma uniq_NoDup (l : list str) : NoDup (uniq l).
Proof.
  induction l as [|y l IH]; cbn [uniq]; constructor.
  - rewrite filter_neq_In. tauto.
  - apply NoDup_filter. assumption.
Qed.



(** ** [getChunkBySourceEntry] *)

Lemma getChunkBySourceEntry_cons (cwd : str) (item : BundleItem) (rest : OutputBundle)
      (entryAbs : str) :
  getChunkBySourceEntry cwd (item :: rest) entryAbs
  = if is_source_entry cwd entryAbs item
    then match item with chunk_item c => Some c | asset_item _ => None end
    else getChunkBySourceEntry cwd rest entryAbs.
Proof.
  destruct item as [c|name]; cbn [getChunkBySourceEntry is_source_entry]; [|reflexivity].
  destruct (isEntry c); [|reflexivity].
  destruct (facadeModuleId c) as [id|]; [|reflexivity].
  destruct (truthy id && str_eqb (path.resolve cwd id) entryAbs); reflexivity.
Qed.

(** X2: [getChunkBySourceEntry] returns the first item of the bundle that
    is an entry chunk with a non-empty [facadeModuleId] resolving to the
    given path, and returns nothing exactly when the bundle has no such
    item; assets and chunks that are not entries are never returned. *)
Theorem getChunkBySourceEntry_spec (cwd : str) (bundle : OutputBundle) (entryAbs : str) :
  match getChunkBySourceEntry cwd bundle entryAbs with
  | Some c =>
      exists before after,
        bundle = before ++ chunk_item c :: after /\
        forallb (fun item => negb (is_source_entry cwd entryAbs item)) before = true /\
        isEntry c = true /\
        exists id, facadeModuleId c = Some id /\ id <> [] /\ path.resolve cwd id = entryAbs
  | None => forallb (fun item => negb (is_source_entry cwd entryAbs item)) bundle = true
  end.
Proof.
  induction bundle as [|item rest IH]; [reflexivity|].
  rewrite getChunkBySourceEntry_cons.
  destruct (is_source_entry cwd entryAbs item) eqn:Eh.
  - destruct item as [c|name]; [|discriminate].
    exists [], rest. split; [reflexivity|]. split; [reflexivity|].
    cbn [is_source_entry] in Eh. apply andb_prop in Eh. destruct Eh as [He Hid].
    split; [assumption|].
    destruct (facadeModuleId c) as [id|]; [|discriminate].
    exists id. split; [reflexivity|].
    apply andb_prop in Hid. destruct Hid as [Ht Hr]. split.
    + unfold truthy in Ht. apply negb_true_iff, str_eqb_neq in Ht. assumption.
    + apply str_eqb_eq. assumption.
  - destruct (getChunkBySourceEntry cwd rest entryAbs) as [c'|].
    + destruct IH as [before [after [-> [Hb Hc]]]].
      exists (item :: before), after. split; [reflexivity|].
      split; [|assumption]. cbn [forallb]. rewrite Eh, Hb. reflexivity.
    + cbn [forallb]. rewrite Eh, IH. reflexivity.
Qed.

(** ** [computeDevOrigin] *)

Lemma scan_chr_eol (suf : str) :
  forall i,
    match scan (Seq (Chr slash) Eol) i suf with
    | Some m => index m = i + length (chop_trailing suf) /\ endIndex m = i + length suf
    | None => chop_trailing suf = suf
    end.
Proof.
  induction suf as [|x t IH]; intros i; [reflexivity|].
  cbn [scan]. unfold match_at. cbn [rmatch].
  destruct t as [|y t'].
  - cbn [chop_trailing scan]. unfold match_at. cbn [rmatch].
    destruct (Ascii.eqb x slash); cbn; [lia | reflexivity].
  - assert (Hnone :
        (if Ascii.eqb x slash
         then match y :: t' with [] => Some (S i, @None str) | _ :: _ => None end
         else None) = @None (nat * option str)) by (destruct (Ascii.eqb x slash); reflexivity).
    rewrite Hnone. specialize (IH (S i)).
    change (chop_trailing (x :: y :: t')) with (x :: chop_trailing (y :: t')).
    destruct (scan (Seq (Chr slash) Eol) (S i) (y :: t')) as [m|].
    + cbn [length] in *. lia.
    + rewrite IH. reflexivity.
Qed.

(** [s.replace(/\/$/, "")] removes the last character when it is a
    separator. *)
Lemma replace_last_slash (s : str) :
  replace_first (Seq (Chr slash) Eol) s [] = chop_trailing s.
Proof.
  unfold replace_first, exec. cbn [Nat.ltb Nat.leb skipn].
  pose proof (scan_chr_eol s 0) as H.
  destruct (scan (Seq (Chr slash) Eol) 0 s) as [m|]; [|symmetry; exact H].
  destruct H as [Hi He]. cbn [Nat.add] in *.
  rewrite Hi, He, chop_trailing_prefix, skipn_all. cbn [app]. apply app_nil_r.
Qed.

(** X3: the dev origin is the [devOrigin] option when it is set and not
    empty, whatever the server says; else the origin of the server
    configuration when that is set and not empty; else
    [http://localhost:] with the configured port, 5173 when there is none.
    An origin taken from the configuration loses its last character when
    that is a separator, and nothing else. *)
Theorem computeDevOrigin_spec (opts : DnnAscxPluginOptions) (server : ViteDevServer) :
  (forall o, Opts.devOrigin opts = Some o -> o <> [] ->
             computeDevOrigin opts server = chop_trailing o) /\
  (Opts.devOrigin opts = None \/ Opts.devOrigin opts = Some [] ->
   (forall o, server_origin server = Some o -> o <> [] ->
              computeDevOrigin opts server = chop_trailing o) /\
   (server_origin server = None \/ server_origin server = Some [] ->
    computeDevOrigin opts server
    = js "http://localhost:" ++ decimal (or_else (server_port server) 5173%N))).
Proof.
  unfold computeDevOrigin, if_truthy, truthy. split.
  - intros o Ho Hne. rewrite Ho. apply str_eqb_neq in Hne. rewrite Hne. cbn [negb].
    apply replace_last_slash.
  - intros Hopt.
    assert (E : match Opts.devOrigin opts with
                | Some s => if negb (str_eqb s []) then Some s else None
                | None => None
                end = None) by (destruct Hopt as [->| ->]; reflexivity).
    rewrite E. split.
    + intros o Ho Hne. rewrite Ho. apply str_eqb_neq in Hne. rewrite Hne. cbn [negb].
      apply replace_last_slash.
    + intros [->| ->]; reflexivity.
Qed.

(** ** The marker and [lastIndex] *)

(** X4: what [rewriteAscxForDev] and the pass of [generateBundle] over one
    file return and do does not depend on the value an earlier use left in
    [marker.lastIndex], and both leave 0 there. *)
Theorem rewrites_reset_lastIndex
        (cwd : str) (opts : DnnAscxPluginOptions) (resolved : ResolvedConfig)
        (bundle : OutputBundle) (outDir original fAbs devOrigin : str)
        (n : nat) (w : World) :
  (rewriteAscxForDev cwd opts original fAbs devOrigin (with_lastIndex n w)
   = rewriteAscxForDev cwd opts original fAbs devOrigin w /\
   lastIndex (snd (rewriteAscxForDev cwd opts original fAbs devOrigin w)) = 0) /\
  (files w fAbs <> None ->
   bundle_file cwd opts resolved bundle outDir fAbs (with_lastIndex n w)
   = bundle_file cwd opts resolved bundle outDir fAbs w /\
   lastIndex (snd (bundle_file cwd opts resolved bundle outDir fAbs w)) = 0).
Proof.
  split.
  - rewrite !rewriteAscxForDev_run, with_lastIndex_twice. split; reflexivity.
  - intros Hread. destruct (files w fAbs) as [c|] eqn:Hc; [clear Hread | congruence].
    rewrite (@bundle_file_run cwd opts resolved bundle fAbs outDir c w Hc).
    rewrite (@bundle_file_run cwd opts resolved bundle fAbs outDir c (with_lastIndex n w) Hc).
    rewrite with_lastIndex_twice. split; reflexivity.
Qed.

(** ** [config] in build mode *)

Lemma scan_files_run (cwd : str) (l : list str) :
  forall inputs w,
    (forall f, In f l -> files w f <> None) ->
    exists w',
      scan_files cwd l inputs w
      = (inr (fold_left (add_input cwd) (flat_map (file_occurrences (files w)) l) inputs), w') /\
      refs w' = refs w ++ flat_map (file_refs cwd (files w)) l /\
      log w' = log w /\ files w' = files w /\ allAscxFiles w' = allAscxFiles w.
Proof.
  induction l as [|f l IH]; intros inputs w Hall; cbn [scan_files flat_map].
  - exists w. unfold ret. rewrite app_nil_r. auto.
  - destruct (files w f) as [c|] eqn:Hc;
      [|exfalso; apply (Hall f); [left; reflexivity | assumption]].
    unfold bind at 1. rewrite (readFileSync_run f w Hc).
    unfold bind at 1. rewrite set_lastIndex_run.
    unfold bind at 1.
    destruct (occurrences_spec c) as [Hms _].
    rewrite (@scan_entries_run cwd f c (length c + 2) 0 (occurrences c) Hms) by reflexivity.
    match goal with |- context [scan_files cwd l ?i1 ?w1] =>
      destruct (IH i1 w1) as [w' [Hrun [Hrefs [Hlog [Hfiles Hall']]]]] end.
    { intros g Hg. cbn. apply Hall. right. assumption. }
    cbn [files refs log allAscxFiles with_refs with_lastIndex]
      in Hrun, Hrefs, Hlog, Hfiles, Hall' |- *.
    assert (Hocc : file_occurrences (files w) f = occurrences c)
      by (unfold file_occurrences; rewrite Hc; reflexivity).
    assert (Hfr : file_refs cwd (files w) f
                  = map (fun m => mkRef f (path.resolve cwd (captured m))) (occurrences c))
      by (unfold file_refs; rewrite Hocc; reflexivity).
    exists w'. split; [|split; [|split; [|split]]]; try assumption.
    + rewrite Hrun, Hocc, fold_left_app. reflexivity.
    + rewrite Hrefs, Hfr, <- app_assoc. reflexivity.
Qed.

(** X5: in build mode, when every discovered template can be read under
    its normalised path, [config] reads them in order and registers one
    Rollup input for each occurrence of the marker, under the key made from
    the path of the module relative to the working directory; a later
    occurrence with the same key replaces the value of an earlier one.
    [refs] then holds one entry for each occurrence, file by file in text
    order, and nothing from an earlier run.  Without any input the hook
    returns no configuration, or throws when [requireAtLeastOneEntry] is
    set.  Nothing is written. *)
Theorem config_build_inputs
        (cwd : str) (opts : DnnAscxPluginOptions)
        (fg : list str -> list str -> (str -> option str) -> list str)
        (outDir : option str) (w : World) :
  let found := map norm (fg (Opts.ascxGlobs opts) (config_ignore opts outDir) (files w)) in
  let inputs :=
    fold_left (add_input cwd) (flat_map (file_occurrences (files w)) found) [] in
  (forall f, In f found -> files w f <> None) ->
  exists w',
    config cwd opts fg outDir cmd_build w
    = (if length inputs =? 0
       then (if or_else (Opts.requireAtLeastOneEntry opts) false
             then inl NoEntryMarkers else inr no_change)
       else inr (rollup_input inputs), w') /\
    refs w' = flat_map (file_refs cwd (files w)) found /\
    allAscxFiles w' = found /\
    log w' = log w /\ files w' = files w.
Proof.
  cbv zeta. intros Hread.
  set (found := map norm (fg (Opts.ascxGlobs opts) (config_ignore opts outDir) (files w))) in *.
  unfold config. cbv zeta.
  unfold bind at 1. unfold set_dirs at 1.
  unfold bind at 1. unfold get at 1. cbn [files with_dirs].
  unfold bind at 1. unfold set_allAscxFiles at 1.
  unfold bind at 1. unfold set_refs at 1.
  unfold bind at 1. unfold get at 1. cbn [allAscxFiles with_refs with_allAscxFiles].
  fold found. unfold bind.
  match goal with |- context [scan_files cwd found [] ?w1] =>
    destruct (scan_files_run cwd found [] w1) as [w' [Hs [Hrefs [Hlog [Hfiles Hall]]]]] end.
  { intros f Hf. cbn. apply Hread. assumption. }
  rewrite Hs. cbn [files with_refs with_allAscxFiles with_dirs refs app] in *.
  exists w'. split.
  - destruct (length (fold_left (add_input cwd)
                        (flat_map (file_occurrences (files w)) found) []) =? 0);
      [rewrite andb_true_r | rewrite andb_false_r];
      [destruct (or_else (Opts.requireAtLeastOneEntry opts) false)|]; reflexivity.
  - repeat split; assumption.
Qed.

Lemma config_build_inputs_witness :
  exists w',
    config Sample.cwd Sample.strict Sample.fg_all None cmd_build Sample.world
    = (inr (rollup_input [(js "src_home_js", js "/proj/src/home.js")]), w') /\
    refs w' = [mkRef (js "/proj/home.ascx") (js "/proj/src/home.js")].
Proof.
  destruct (config_build_inputs Sample.cwd Sample.strict Sample.fg_all None Sample.world)
    as [w' [Hrun [Hrefs _]]].
  - intros f [<-|[<-|[]]]; vm_compute; discriminate.
  - exists w'. split; [exact Hrun | exact Hrefs].
Defined.

(** ** [config] in serve mode *)

Lemma dirToIgnore_In (dir : option str) (x : str) :
  In x (dirToIgnore dir)
  <-> exists d, dir = Some d /\ d <> [] /\ (x = norm d \/ x = norm d ++ js "/**").
Proof.
  unfold dirToIgnore. destruct dir as [d|].
  - unfold truthy. destruct (str_eqb_spec d []) as [->|Hne]; cbn [negb].
    + split; [intros [] | intros [d [Hd [Hne _]]]; inversion Hd; subst; congruence].
    + cbv zeta. cbn [In]. split.
      * intros [<-|[<-|[]]]; exists d; auto.
      * intros [d' [Hd [_ Hx]]]. inversion Hd; subst d'. destruct Hx as [->| ->]; auto.
  - split; [intros [] | intros [d [Hd _]]; discriminate].
Qed.

(** X6: in serve mode [config] reads no template and writes nothing; it
    stores the normalised discovery result and hands the ignore list to
    the watcher.  That list, which discovery also receives, has no
    duplicates and consists of the two housekeeping patterns and, for each
    of the three output directories that is set to a non-empty path (the
    build output directory, [dist] by default; the dev mirror, [.dnn] by
    default; the build mirror, when configured), of its normalised path
    and of that path followed by [/**]. *)
Theorem config_serve_ignore
        (cwd : str) (opts : DnnAscxPluginOptions)
        (fg : list str -> list str -> (str -> option str) -> list str)
        (outDir : option str) (w : World) :
  let ign := config_ignore opts outDir in
  let w' := snd (config cwd opts fg outDir serve w) in
  fst (config cwd opts fg outDir serve w) = inr (watch_ignored ign) /\
  ignore w' = ign /\
  allAscxFiles w' = map norm (fg (Opts.ascxGlobs opts) ign (files w)) /\
  log w' = log w /\ files w' = files w /\ refs w' = refs w /\
  NoDup ign /\
  (forall x,
      In x ign <->
      x = js "**/node_modules/**" \/ x = js "**/.git/**" \/
      exists d,
        (d = or_else outDir (js "dist") \/
         d = or_else (Opts.devOutAscxDir opts) (js ".dnn") \/
         Opts.outAscxDir opts = Some d) /\
        d <> [] /\ (x = norm d \/ x = norm d ++ js "/**")).
Proof.
  cbv zeta. repeat (split; [reflexivity|]). split; [apply uniq_NoDup|].
  intros x. unfold config_ignore. cbv zeta. rewrite uniq_In, !in_app_iff, !dirToIgnore_In.
  cbn [In]. split.
  - intros [[d [Hd H]]|[[d [Hd H]]|[[d [Hd H]]|[<-|[<-|[]]]]]].
    + right. right. exists d. inversion Hd; subst. auto.
    + right. right. exists d. inversion Hd; subst. auto.
    + right. right. exists d. auto.
    + left. reflexivity.
    + right. left. reflexivity.
  - intros [->|[->|[d [Hd H]]]].
    + right. right. right. left. reflexivity.
    + right. right. right. right. left. reflexivity.
    + destruct Hd as [->|[->|Hd]].
      * left. eexists. split; [reflexivity | exact H].
      * right. left. eexists. split; [reflexivity | exact H].
      * right. right. left. exists d. split; [exact Hd | exact H].
Qed.

(** ** Watch events without effect *)

(** X7: an add or unlink event for a path that does not end in [.ascx]
    (in any case of letters) changes nothing; neither does a change event
    for a path that, made absolute and normalised, lies outside the public
    directory and either does not end in [.ascx] or is not a tracked
    template.  Nothing is read, written or rendered, and no reload is
    signalled. *)
Theorem ignored_watch_events
        (cwd : str) (opts : DnnAscxPluginOptions) (resolved : ResolvedConfig)
        (fg_sync : list str -> list str -> (str -> option str) -> list str)
        (server : ViteDevServer) (file : str) (w : World) :
  (endsWith (toLowerCase file) (js ".ascx") = false ->
   onAdd cwd opts fg_sync server file w = (inr tt, w) /\
   onUnlink cwd opts fg_sync server file w = (inr tt, w)) /\
  (startsWith (norm (absolute cwd file))
              (norm (absolute cwd (publicDir resolved)) ++ js "/") = false ->
   endsWith (norm (absolute cwd file)) (js ".ascx") = false \/
   ~ In (norm (absolute cwd file)) (allAscxFiles w) ->
   onChange cwd opts resolved server file w = (inr tt, w)).
Proof.
  split.
  - intros H. unfold onAdd, onUnlink. rewrite H. split; reflexivity.
  - intros Hpub Hno. unfold onChange. cbv zeta. rewrite !absPath_lower, Hpub.
    destruct (endsWith (norm (absolute cwd file)) (js ".ascx")) eqn:Ee; [|reflexivity].
    destruct Hno as [Hno|Hno]; [discriminate|].
    unfold bind, get.
    destruct (includes (allAscxFiles w) (norm (absolute cwd file))) eqn:Ei; [|reflexivity].
    exfalso. apply Hno. apply includes_In. exact Ei.
Qed.

(** ** The first pass of the dev server *)

Section DevPass.
Variable cwd : str.
Variable opts : DnnAscxPluginOptions.
Variables devOutAbs devOrigin : str.


End DevPass.



(** ** The keys of the Rollup inputs *)






(** ** Change events that mirror *)




(** ** The structure of the mirror *)







(** X12: a source path outside the root, and also one below the root whose
    relative path begins with two dots (a directory or file named [..x]
    directly in the root), is mirrored flat, under its base name alone; so
    two such source paths with the same base name have the same output
    path, and the mirror of the second overwrites that of the first. *)
Theorem mirror_flattens
        (cwd : str) (opts : DnnAscxPluginOptions) (outDir abs abs' contents contents' : str)
        (w : World) :
  let flat p :=
    below cwd (ascxRootDir cwd opts) p = false \/
    startsWith (path.relative cwd (ascxRootDir cwd opts) p) (js "..") = true in
  flat abs -> flat abs' -> path.basename abs = path.basename abs' ->
  outPath cwd opts outDir abs = path.join2 outDir (path.basename abs) /\
  outPath cwd opts outDir abs' = outPath cwd opts outDir abs /\
  files (snd ((writeMirrored cwd opts outDir abs contents ;;
               writeMirrored cwd opts outDir abs' contents')%m w))
        (outPath cwd opts outDir abs)
  = Some contents'.
Proof.
  cbv zeta. intros H H' Hbase.
  assert (Hflat : forall p,
             below cwd (ascxRootDir cwd opts) p = false \/
             startsWith (path.relative cwd (ascxRootDir cwd opts) p) (js "..") = true ->
             outPath cwd opts outDir p = path.join2 outDir (path.basename p)).
  { intros p Hp. unfold outPath, safeRel. cbv zeta.
    assert (Hs : startsWith (path.relative cwd (ascxRootDir cwd opts) p) (js "..") = true)
      by (destruct Hp as [Hp|Hp]; [apply relative_out_of_root|]; assumption).
    rewrite Hs. reflexivity. }
  assert (Hsame : outPath cwd opts outDir abs' = outPath cwd opts outDir abs)
    by (rewrite !Hflat by assumption; rewrite Hbase; reflexivity).
  split; [apply Hflat; assumption|]. split; [exact Hsame|].
  unfold bind. rewrite !writeMirrored_run. cbn [snd files with_file].
  rewrite Hsame, str_eqb_refl. reflexivity.
Qed.

Lemma mirror_flattens_witness :
  outPath Sample.cwd Sample.opts (js "/proj/.dnn") (js "/a/home.ascx")
  = js "/proj/.dnn/home.ascx" /\
  outPath Sample.cwd Sample.opts (js "/proj/.dnn") (js "/proj/..b/home.ascx")
  = outPath Sample.cwd Sample.opts (js "/proj/.dnn") (js "/a/home.ascx").
Proof.
  destruct (mirror_flattens Sample.cwd Sample.opts (js "/proj/.dnn") (js "/a/home.ascx")
              (js "/proj/..b/home.ascx") [] [] Sample.world
              ltac:(left; vm_compute; reflexivity)
              ltac:(right; vm_compute; reflexivity)
              ltac:(vm_compute; reflexivity)) as [H1 [H2 _]].
  split; [|exact H2]. rewrite H1. vm_compute. reflexivity.
Defined.

(** ** The shape of a marker *)

Section MatcherShape.
Variable A : Type.

Lemma star_inv_all (f : ascii -> bool) (suf : str) :
  forall (i : nat) (cap : option str) (k : cont A) (a : A),
    star f i suf cap k = Some a ->
    exists pre rest,
      suf = pre ++ rest /\ forallb f pre = true /\ k (i + length pre) rest cap = Some a.
Proof.
  induction suf as [|x t IH]; intros i cap k a H; cbn [star] in H.
  - exists [], []. rewrite Nat.add_0_r. auto.
  - destruct (f x) eqn:Ef.
    + destruct (star f (S i) t cap k) as [a'|] eqn:Es.
      * inversion H; subst a'. destruct (IH _ _ _ _ Es) as [pre [rest [-> [Hall Hk]]]].
        exists (x :: pre), rest. cbn [forallb length app]. rewrite Ef, Hall.
        replace (i + S (length pre)) with (S i + length pre) by lia. auto.
      * exists [], (x :: t). rewrite Nat.add_0_r. auto.
    + exists [], (x :: t). rewrite Nat.add_0_r. auto.
Qed.

Lemma plus_inv_all (f : ascii -> bool) (suf : str) (i : nat) (cap : option str)
      (k : cont A) (a : A) :
  rmatch (Plus f) i suf cap k = Some a ->
  exists pre rest,
    suf = pre ++ rest /\ pre <> [] /\ forallb f pre = true /\
    k (i + length pre) rest cap = Some a.
Proof.
  cbn [rmatch]. destruct suf as [|x t]; [discriminate|].
  destruct (f x) eqn:Ef; [|discriminate]. intros H.
  destruct (star_inv_all f t _ _ _ _ H) as [pre [rest [-> [Hall Hk]]]].
  exists (x :: pre), rest. cbn [forallb length app]. rewrite Ef, Hall.
  replace (i + S (length pre)) with (S i + length pre) by lia.
  repeat split; [discriminate | assumption].
Qed.

Lemma lit_inv (l : str) :
  forall (i : nat) (suf : str) (cap : option str) (k : cont A) (a : A),
    rmatch (lit l) i suf cap k = Some a ->
    exists rest, suf = l ++ rest /\ k (i + length l) rest cap = Some a.
Proof.
  induction l as [|c l IH]; intros i suf cap k a H.
  - exists suf. rewrite Nat.add_0_r. auto.
  - change (lit (c :: l)) with (Seq (Chr c) (lit l)) in H. cbn [rmatch] in H.
    destruct suf as [|x t]; [discriminate|].
    destruct (Ascii.eqb_spec x c) as [->|_]; [|discriminate].
    destruct (IH _ _ _ _ _ H) as [rest [-> Hk]].
    exists rest. cbn [length app].
    replace (i + S (length l)) with (S i + length l) by lia. auto.
Qed.

Lemma star_complete (f : ascii -> bool) (pre : str) :
  forall (i : nat) (rest : str) (cap : option str) (k : cont A),
    forallb f pre = true ->
    k (i + length pre) rest cap <> None ->
    star f i (pre ++ rest) cap k <> None.
Proof.
  induction pre as [|x pre IH]; intros i rest cap k Hall Hk.
  - cbn [app length] in *. rewrite Nat.add_0_r in Hk.
    destruct rest as [|y t]; cbn [star]; [assumption|].
    destruct (f y); [|assumption].
    destruct (star f (S i) t cap k); [discriminate | assumption].
  - cbn [forallb] in Hall. apply andb_prop in Hall. destruct Hall as [Hx Hall].
    cbn [app star]. rewrite Hx.
    assert (Hs : star f (S i) (pre ++ rest) cap k <> None).
    { apply IH; [assumption|]. cbn [length] in Hk.
      replace (S i + length pre) with (i + S (length pre)) by lia. assumption. }
    destruct (star f (S i) (pre ++ rest) cap k); [discriminate | congruence].
Qed.

Lemma plus_complete (f : ascii -> bool) (pre rest : str) (i : nat) (cap : option str)
      (k : cont A) :
  pre <> [] -> forallb f pre = true ->
  k (i + length pre) rest cap <> None ->
  rmatch (Plus f) i (pre ++ rest) cap k <> None.
Proof.
  intros Hne Hall Hk. destruct pre as [|x pre]; [congruence|].
  cbn [forallb] in Hall. apply andb_prop in Hall. destruct Hall as [Hx Hall].
  cbn [app rmatch]. rewrite Hx. apply star_complete; [assumption|].
  cbn [length] in Hk. replace (S i + length pre) with (i + S (length pre)) by lia.
  assumption.
Qed.

Lemma lit_complete (l : str) :
  forall (i : nat) (rest : str) (cap : option str) (k : cont A),
    k (i + length l) rest cap <> None ->
    rmatch (lit l) i (l ++ rest) cap k <> None.
Proof.
  induction l as [|c l IH]; intros i rest cap k Hk.
  - cbn [length app] in *. rewrite Nat.add_0_r in Hk. exact Hk.
  - change (lit (c :: l)) with (Seq (Chr c) (lit l)). cbn [rmatch app].
    rewrite Ascii.eqb_refl. apply IH. cbn [length] in Hk.
    replace (S i + length l) with (i + S (length l)) by lia. assumption.
Qed.
End MatcherShape.

(** What the pattern matches at one index. *)
Lemma marker_match_shape (i : nat) (suf : str) (e : nat) (c : option str) :
  match_at marker i suf = Some (e, c) ->
  exists ws1 ws2 ref ws3 rest,
    suf = marker_text ws1 ws2 ref ws3 ++ rest /\
    well_formed ws1 ws2 ref ws3 /\
    c = Some ref /\
    e = i + length (marker_text ws1 ws2 ref ws3).
Proof.
  unfold match_at, marker. cbn [rmatch]. intros H.
  apply lit_inv in H. destruct H as [r1 [-> H]]. cbv beta in H. cbn [rmatch] in H.
  apply star_inv_all in H. destruct H as [ws1 [r2 [-> [Hws1 H]]]]. cbv beta in H.
  apply lit_inv in H. destruct H as [r3 [-> H]]. cbv beta in H.
  apply plus_inv_all in H. destruct H as [ws2 [r4 [-> [Hne2 [Hws2 H]]]]]. cbv beta in H.
  cbn [rmatch] in H.
  apply plus_inv_all in H. destruct H as [ref [r5 [-> [Hner [Href H]]]]]. cbv beta in H.
  cbn [rmatch] in H.
  apply star_inv_all in H. destruct H as [ws3 [r6 [-> [Hws3 H]]]]. cbv beta in H.
  apply lit_inv in H. destruct H as [rest [-> H]]. cbv beta in H.
  inversion H; subst e c; clear H.
  exists ws1, ws2, ref, ws3, rest. unfold marker_text, well_formed.
  split; [rewrite <- !app_assoc; reflexivity|].
  split; [repeat split; assumption|]. split.
  - f_equal. match goal with |- firstn ?n _ = _ =>
      replace n with (length ref) by lia end.
    apply firstn_app_length.
  - rewrite !length_app.
    change (length (js "<!--")) with 4. change (length (js "@vite:entry")) with 11.
    change (length (js "-->")) with 3. lia.
Qed.

Lemma marker_match_complete (i : nat) (ws1 ws2 ref ws3 rest : str) :
  well_formed ws1 ws2 ref ws3 ->
  match_at marker i (marker_text ws1 ws2 ref ws3 ++ rest) <> None.
Proof.
  intros [Hws1 [Hws2 [Hne2 [Href [Hner Hws3]]]]].
  unfold match_at, marker, marker_text. rewrite <- !app_assoc. cbn [rmatch].
  apply lit_complete. cbn [rmatch].
  apply star_complete; [assumption|].
  apply lit_complete.
  apply plus_complete; [assumption | assumption |]. cbn [rmatch].
  apply plus_complete; [assumption | assumption |]. cbn [rmatch].
  apply star_complete; [assumption|].
  apply lit_complete. discriminate.
Qed.

Lemma occurrences_from_shape (s : str) (i : nat) (ms : list MatchResult) :
  occurrences_from s i ms ->
  Forall (fun m =>
            exists ws1 ws2 ref ws3,
              matched m = marker_text ws1 ws2 ref ws3 /\
              well_formed ws1 ws2 ref ws3 /\
              group1 m = Some ref) ms.
Proof.
  induction 1 as [|i m ms _ _ Hm Hlen Hmatched _ IH]; constructor; [|exact IH].
  destruct (marker_match_shape _ _ _ _ Hm) as [ws1 [ws2 [ref [ws3 [rest [Hs [Hwf [Hc He]]]]]]]].
  exists ws1, ws2, ref, ws3. split; [|split; assumption].
  rewrite Hmatched. unfold substring. rewrite Hs.
  replace (endIndex m - index m) with (length (marker_text ws1 ws2 ref ws3)) by lia.
  apply firstn_app_length.
Qed.

Lemma occurrences_from_cover (s : str) (i : nat) (ms : list MatchResult) :
  occurrences_from s i ms ->
  forall p,
    i <= p <= length s ->
    match_at marker p (skipn p s) <> None ->
    exists m, In m ms /\ index m <= p < endIndex m.
Proof.
  induction 1 as [i Hnone|i m ms Hi Hnone Hm Hlen Hmatched Hrest IH]; intros p Hp Hmatch.
  - exfalso. apply Hmatch. apply Hnone. exact Hp.
  - destruct (Nat.lt_ge_cases p (index m)) as [Hlt|Hge].
    + exfalso. apply Hmatch. apply Hnone. lia.
    + destruct (Nat.lt_ge_cases p (endIndex m)) as [Hin|Hout].
      * exists m. split; [left; reflexivity | lia].
      * destruct (IH p) as [m' [Hm' Hp']]; [lia | assumption |].
        exists m'. split; [right; assumption | assumption].
Qed.

(** X13: every occurrence of the marker that the rewrites and [config]
    find is a text of the shape [<!--], white space, [@vite:entry], white
    space, reference, white space, [-->], where only the white space
    between [@vite:entry] and the reference is required, and the captured
    reference is the stretch between that white space and the next: it is
    not empty and holds no white space. *)
Theorem occurrences_shape (s : str) :
  Forall (fun m =>
            exists ws1 ws2 ref ws3,
              matched m = marker_text ws1 ws2 ref ws3 /\
              well_formed ws1 ws2 ref ws3 /\
              group1 m = Some ref /\
              matched m = substring s (index m) (endIndex m))
         (occurrences s).
Proof.
  destruct (occurrences_spec s) as [_ Hfrom].
  pose proof (occurrences_from_shape s 0 _ Hfrom) as Hshape.
  assert (Hsub : Forall (fun m => matched m = substring s (index m) (endIndex m))
                        (occurrences s)).
  { clear Hshape. induction Hfrom; constructor; assumption. }
  rewrite Forall_forall in *. intros m Hm.
  destruct (Hshape m Hm) as [ws1 [ws2 [ref [ws3 [H1 [H2 H3]]]]]].
  exists ws1, ws2, ref, ws3. repeat split; try assumption; try apply H2.
  apply Hsub. assumption.
Qed.

(** X14: no marker is missed: wherever the text continues with a
    well-formed marker, an occurrence is found that begins there or that
    began earlier and reaches over that place. *)
Theorem occurrences_cover (s : str) (p : nat) (ws1 ws2 ref ws3 rest : str) :
  p <= length s ->
  skipn p s = marker_text ws1 ws2 ref ws3 ++ rest ->
  well_formed ws1 ws2 ref ws3 ->
  exists m, In m (occurrences s) /\ index m <= p < endIndex m.
Proof.
  intros Hp Hs Hwf. destruct (occurrences_spec s) as [_ Hfrom].
  apply (occurrences_from_cover s 0 _ Hfrom p); [lia|].
  rewrite Hs. apply marker_match_complete. assumption.
Qed.

Lemma occurrences_cover_witness :
  exists m, In m (occurrences Sample.home) /\ index m <= 5 < endIndex m.
Proof.
  apply (occurrences_cover Sample.home 5 (js " ") (js " ") (js "src/home.js") (js " ")
                           (js "</div>")).
  - vm_compute. lia.
  - vm_compute. reflexivity.
  - unfold well_formed. repeat split; try (vm_compute; reflexivity); discriminate.
Defined.

(** ** What [norm] does not tell apart *)

Lemma strip_trailing_snoc_slash (s : str) : strip_trailing (s ++ [slash]) = strip_trailing s.
Proof.
  unfold strip_trailing. rewrite rev_app_distr. cbn [rev app path.dropwhile].
  change (is_char slash slash) with true. reflexivity.
Qed.

Lemma strip_trailing_nil (s : str) :
  strip_trailing s = [] <-> forallb (is_char slash) s = true.
Proof.
  induction s as [|x t IH]; [split; reflexivity|].
  rewrite strip_trailing_cons.
  destruct (forallb (is_char slash) (x :: t)); split; auto; discriminate.
Qed.

(** X15: [norm] gives the same result for two paths that differ in the
    case of letters, in the kind of separator or in one more separator at
    the end; and it gives the empty string exactly for the paths that
    consist of separators only (the empty path among them). *)
Theorem norm_insensitive (p : str) :
  norm (toLowerCase p) = norm p /\
  norm (map bs_to_slash p) = norm p /\
  norm (p ++ [slash]) = norm p /\
  norm (p ++ [backslash]) = norm p /\
  (norm p = [] <->
   forallb (fun c => is_char slash c || is_char backslash c) p = true).
Proof.
  split; [apply norm_lower|]. rewrite !norm_eq.
  assert (Hbs : map bs_to_slash (map bs_to_slash p) = map bs_to_slash p).
  { rewrite map_map. apply map_ext. intros c.
    apply bs_to_slash_fixed, bs_to_slash_no_backslash. }
  split; [rewrite Hbs; reflexivity|].
  split; [rewrite map_app; cbn [map]; change (bs_to_slash slash) with slash;
          rewrite strip_trailing_snoc_slash; reflexivity|].
  split; [rewrite map_app; cbn [map]; change (bs_to_slash backslash) with slash;
          rewrite strip_trailing_snoc_slash; reflexivity|].
  assert (Hall : forallb (is_char slash) (map bs_to_slash p)
                 = forallb (fun c => is_char slash c || is_char backslash c) p).
  { clear Hbs. induction p as [|c t IH]; [reflexivity|]. cbn [map forallb]. rewrite IH.
    f_equal. destruct c as [[] [] [] [] [] [] [] []]; reflexivity. }
  rewrite <- Hall, <- strip_trailing_nil. split.
  - intros H. destruct (strip_trailing (map bs_to_slash p)); [reflexivity | discriminate].
  - intros ->. reflexivity.
Qed.

(** ** Templates are read under their normalised path *)

(** X16: [config] reads a discovered template under the path that [norm]
    made of it, not under the path that discovery returned: in build mode,
    when the disk has no file under the normalised path of the first
    discovered template, the hook throws ENOENT for that path, whether or
    not the discovered path itself can be read; nothing has been written
    and no input has been registered. *)
Theorem config_reads_normalised_path
        (cwd : str) (opts : DnnAscxPluginOptions)
        (fg : list str -> list str -> (str -> option str) -> list str)
        (outDir : option str) (w : World) (p : str) (rest : list str) :
  fg (Opts.ascxGlobs opts) (config_ignore opts outDir) (files w) = p :: rest ->
  files w (norm p) = None ->
  exists w',
    config cwd opts fg outDir cmd_build w = (inl (ENOENT (norm p)), w') /\
    allAscxFiles w' = norm p :: map norm rest /\
    refs w' = [] /\ log w' = log w /\ files w' = files w.
Proof.
  intros Hfound Hnone. unfold config. cbv zeta.
  unfold bind at 1. unfold set_dirs at 1.
  unfold bind at 1. unfold get at 1. cbn [files with_dirs]. rewrite Hfound.
  unfold bind at 1. unfold set_allAscxFiles at 1.
  unfold bind at 1. unfold set_refs at 1.
  unfold bind at 1. unfold get at 1. cbn [allAscxFiles with_refs with_allAscxFiles map].
  cbn [scan_files]. unfold bind. unfold readFileSync.
  cbn [files with_refs with_allAscxFiles with_dirs]. rewrite Hnone.
  eexists. split; [reflexivity|]. repeat split.
Qed.

Lemma config_reads_normalised_path_witness :
  exists w',
    config Sample.cwd Sample.opts
           (fun _ _ _ => [js "/proj/Home.ascx"]) None cmd_build
           (initial_world (fun q => if str_eqb q (js "/proj/Home.ascx")
                                    then Some Sample.home else None))
    = (inl (ENOENT (js "/proj/home.ascx")), w').
Proof.
  destruct (config_reads_normalised_path Sample.cwd Sample.opts
              (fun _ _ _ => [js "/proj/Home.ascx"]) None
              (initial_world (fun q => if str_eqb q (js "/proj/Home.ascx")
                                       then Some Sample.home else None))
              (js "/proj/Home.ascx") [] eq_refl)
    as [w' [Hrun _]].
  - vm_compute. reflexivity.
  - exists w'. exact Hrun.
Defined.
